(** * Playback coordination engine: AudioManager and the AudioPlayer index translator

    A shallow embedding of [src/audio-manager.js] (class [AudioManager]) and of
    the alias helpers of the [AudioPlayer] widget ([findMasterIndex],
    [findLocalIndex], [destroy]), followed by the properties of the
    specification that concern them.

    Conventions of the embedding.
    - The object [this.players] is a plain object used as a dictionary.  Its
      own properties are a [gmap] from playlist names to player records; so
      is the per-player [waveforms] object, keyed by track index.  A lookup
      [this.players[name]] that finds no own property goes on to
      [Object.prototype]: under the names of [objectPrototypeKeys] it finds an
      inherited member, which is truthy and is no player, and the code that
      reads the [playlist] or the [waveforms] of it throws TypeError.  The
      operations of the manager are given on own properties: they are the
      code for the names that are registered or that [Object.prototype] does
      not have.  [lookupPlayer], [tryReconnect_call] and the index translator
      follow the lookup for every name.  A registration under the name
      [__proto__] replaces the prototype of the object instead of adding a
      property to it; a state stands for a manager whose registry still has
      [Object.prototype] as its prototype.
    - JavaScript strings that are only stored or compared ([name], [title],
      [artist], [year]) are [string]s.  A track's [src] is decoded by
      [decodeURIComponent] and searched by [String.prototype.includes], so it
      is kept as its sequence of UTF-16 code units.
    - The media element [this.audio] belongs to the platform.  Its attributes
      read or written by the manager ([src], [currentTime], [duration]) are
      fields of a record, the requests made to it ([play()], [pause()]) are
      recorded in the output log, and the events it fires are inputs
      ([AudioEvent]) whose handlers are those installed by [bindAudioEvents].
    - Callbacks are function objects compared by identity: a callback is a
      number, and the heap of closures maps it to what its body does to the
      listener arrays when it runs.  Every invocation of a callback is
      recorded in the output log together with its argument.
    - Left out, as no property below concerns them: [seek]; the resolution
      of [audio.src] into an absolute URL by the element (the field [a_src]
      holds the string that [loadTrack] assigns, and [clearPlayers] records
      whatever string the field holds); and the insertion order of the keys
      of [this.players]. *)

From Stdlib Require Import ZArith NArith QArith List Bool Ascii String Lia.
From stdpp Require Import gmap strings list fin_maps.

Local Open Scope Z_scope.

(** ** JavaScript strings as code units *)

Module JsString.

(** A string value: its UTF-16 code units. *)
Definition t : Type := list N.

(** The code units of an ASCII literal. *)
Definition lit (s : string) : t :=
  map N_of_ascii (list_ascii_of_string s).

Fixpoint startsWith (s sub : t) : bool :=
  match sub, s with
  | [], _ => true
  | _ :: _, [] => false
  | c :: sub', d :: s' => (c =? d)%N && startsWith s' sub'
  end.

(** [s.includes(sub)]: [sub] occurs in [s] as a run of consecutive code
    units. *)
Fixpoint includes (s sub : t) : bool :=
  startsWith s sub ||
  match s with
  | [] => false
  | _ :: s' => includes s' sub
  end.

(** Strict equality [===] of two strings. *)
Definition eqb (a b : t) : bool := bool_decide (a = b).

End JsString.

(** ** [decodeURIComponent] (ECMA-262, abstract operation Decode with an
       empty set of preserved escapes) *)

Module URI.

Definition PERCENT : N := 37%N.

Definition hexDigit (c : N) : option N :=
  if ((48 <=? c) && (c <=? 57))%N then Some (c - 48)%N
  else if ((65 <=? c) && (c <=? 70))%N then Some (c - 55)%N
  else if ((97 <=? c) && (c <=? 102))%N then Some (c - 87)%N
  else None.

Definition ParseHexOctet (h1 h2 : N) : option N :=
  match hexDigit h1, hexDigit h2 with
  | Some a, Some b => Some (16 * a + b)%N
  | _, _ => None
  end.

(** Number of leading 1 bits of an octet. *)
Definition leadingOnes (B : N) : nat :=
  if (B <? 128)%N then 0%nat
  else if (B <? 192)%N then 1%nat
  else if (B <? 224)%N then 2%nat
  else if (B <? 240)%N then 3%nat
  else if (B <? 248)%N then 4%nat
  else 5%nat.

(** The [j] continuation escapes [%XX] that must follow the first octet of
    a multi-octet sequence; [None] where Decode throws. *)
Fixpoint continuation (j : nat) (s : JsString.t)
  : option (list N * JsString.t) :=
  match j with
  | O => Some ([], s)
  | S j' =>
      match s with
      | p :: h1 :: h2 :: rest =>
          if (p =? PERCENT)%N then
            match ParseHexOctet h1 h2 with
            | Some b =>
                match continuation j' rest with
                | Some (bs, r) => Some (b :: bs, r)
                | None => None
                end
            | None => None
            end
          else None
      | _ => None
      end
  end.

Definition isContinuationOctet (b : N) : bool :=
  ((128 <=? b) && (b <? 192))%N.

(** The code point encoded by the octets [B :: conts] when they are a valid
    UTF-8 encoding ([n] is the number of octets): no overlong form, no
    surrogate, nothing above U+10FFFF. *)
Definition utf8CodePoint (n : nat) (B : N) (conts : list N) : option N :=
  if forallb isContinuationOctet conts then
    let lead :=
      match n with
      | 2%nat => (B - 192)%N
      | 3%nat => (B - 224)%N
      | _ => (B - 240)%N
      end in
    let lowest :=
      match n with
      | 2%nat => 128%N
      | 3%nat => 2048%N
      | _ => 65536%N
      end in
    let V := fold_left (fun acc b => (acc * 64 + (b - 128))%N) conts lead in
    if ((lowest <=? V) && (V <=? 1114111)
        && negb ((55296 <=? V) && (V <=? 57343)))%N
    then Some V else None
  else None.

Definition UTF16EncodeCodePoint (V : N) : JsString.t :=
  if (V <=? 65535)%N then [V]
  else [((V - 65536) / 1024 + 55296)%N; ((V - 65536) mod 1024 + 56320)%N].

(** The loop of Decode.  Each pass consumes at least one code unit, so
    [length s] passes are always enough ([Decode_fuel] below); [None] is
    the URIError exception. *)
Fixpoint Decode (fuel : nat) (s : JsString.t) : option JsString.t :=
  match s with
  | [] => Some []
  | C :: rest =>
      match fuel with
      | O => None
      | S fuel' =>
          if (C =? PERCENT)%N then
            match rest with
            | h1 :: h2 :: rest' =>
                match ParseHexOctet h1 h2 with
                | None => None
                | Some B =>
                    match leadingOnes B with
                    | 0%nat => option_map (cons B) (Decode fuel' rest')
                    | (2 | 3 | 4)%nat as n =>
                        match continuation (n - 1) rest' with
                        | None => None
                        | Some (conts, rest'') =>
                            match utf8CodePoint n B conts with
                            | None => None
                            | Some V =>
                                option_map (app (UTF16EncodeCodePoint V))
                                           (Decode fuel' rest'')
                            end
                        end
                    | _ => None
                    end
                end
            | _ => None
            end
          else option_map (cons C) (Decode fuel' rest)
      end
  end.

Definition decodeURIComponent (s : JsString.t) : option JsString.t :=
  Decode (length s) s.

End URI.

(** ** Data model *)

(** A track of a playlist: [{title, src}]. *)
Record Track := { title : string; src : JsString.t }.

(** Waveform data: the samples fetched for one track (an array, hence always
    truthy). *)
Definition WaveformData : Type := list Q.

Inductive Channel := StateChannel | TimeChannel.

#[global] Instance Channel_eq_dec : EqDecision Channel.
Proof. solve_decision. Defined.

(** What the body of a callback may do to the listener arrays while it runs:
    call [addStateListener]/[addTimeListener] with a callback, or call a
    disposer that one of these returned for a callback. *)
Inductive ListenerAction :=
| Subscribe (ch : Channel) (cb : nat)
| Unsubscribe (ch : Channel) (cb : nat).

(** The unsubscribe function returned by [addStateListener] or
    [addTimeListener]: a closure over the channel's array and the callback. *)
Record Disposer := { d_channel : Channel; d_callback : nat }.

(** The [AudioPlayer] widget, as far as the manager and the index translator
    see it.  [_unsubscribeState] and [_unsubscribeTime] hold the callback
    of the disposer stored by [bindEvents], when there is one. *)
Record AudioPlayer := {
  ap_playlist : list Track;
  ap_name : string;
  ap_masterPlaylist : option string;
  _unsubscribeState : option nat;
  _unsubscribeTime : option nat
}.

(** The [options] argument of [register]. *)
Record Options := {
  opt_player : option AudioPlayer;
  opt_artist : option string;
  opt_year : option string
}.

(** An entry of [this.players]. *)
Record Player := {
  p_name : string;
  p_playlist : list Track;
  p_options : Options;
  p_artist : option string;
  p_year : option string;
  p_waveforms : gmap Z WaveformData
}.

(** The attributes of the media element that the manager reads or writes.
    [a_duration] is [None] while the duration is unknown (NaN). *)
Record Audio := {
  a_src : JsString.t;
  a_currentTime : Q;
  a_duration : option Q
}.

(** The result of [getCurrentTrack]: [null], [undefined] (an index with no
    element) or a track. *)
Inductive TrackValue :=
| TrackNull
| TrackUndefined
| TrackObject (t : Track).

(** The snapshot built by [getState]. *)
Record ManagerState := {
  st_isPlaying : bool;
  st_currentTrack : TrackValue;
  st_currentIndex : Z;
  st_playlistName : option string;
  st_playlistLength : nat;
  st_currentTime : Q;
  st_duration : Q;
  st_artist : option string;
  st_year : option string
}.

Record TimeInfo := { ti_currentTime : Q; ti_duration : Q }.

(** An element of the array returned by [getPlaylists]. *)
Record PlaylistInfo := {
  pi_name : string;
  pi_trackCount : nat;
  pi_isActive : bool
}.

Record PendingReconnect := {
  pr_playerName : option string;
  pr_src : JsString.t;
  pr_time : Q;
  pr_playing : bool
}.

(** What the manager does to the outside: calls of the legacy callback
    fields, calls of registered listeners, requests to the media element and
    to [window.videoManager], and console output.  The log is newest
    first. *)
Inductive Output :=
| OnStateChange (s : ManagerState)
| StateListenerCall (cb : nat) (s : ManagerState)
| OnTimeUpdate (t : TimeInfo)
| TimeListenerCall (cb : nat) (t : TimeInfo)
| OnPlaylistChange (l : list PlaylistInfo)
| AudioPlay
| AudioPause
| VideoPauseAll
| ConsoleError.

(** The fields of an [AudioManager] instance, the closures of the callbacks
    it may be given, whether [window.videoManager] exists, and the log. *)
Record AudioManager := {
  players : gmap string Player;
  activePlayerName : option string;
  audio : Audio;
  currentPlaylist : list Track;
  currentIndex : Z;
  isPlaying : bool;
  _stateChangeListeners : list nat;
  _timeUpdateListeners : list nat;
  _pendingReconnect : option PendingReconnect;
  videoManager : bool;
  closures : nat -> list ListenerAction;
  log : list Output
}.

(** Field updates. *)
Definition set_players (v : gmap string Player) (m : AudioManager) :=
  {| players := v; activePlayerName := activePlayerName m; audio := audio m;
     currentPlaylist := currentPlaylist m; currentIndex := currentIndex m;
     isPlaying := isPlaying m;
     _stateChangeListeners := _stateChangeListeners m;
     _timeUpdateListeners := _timeUpdateListeners m;
     _pendingReconnect := _pendingReconnect m; videoManager := videoManager m;
     closures := closures m; log := log m |}.

Definition set_activePlayerName (v : option string) (m : AudioManager) :=
  {| players := players m; activePlayerName := v; audio := audio m;
     currentPlaylist := currentPlaylist m; currentIndex := currentIndex m;
     isPlaying := isPlaying m;
     _stateChangeListeners := _stateChangeListeners m;
     _timeUpdateListeners := _timeUpdateListeners m;
     _pendingReconnect := _pendingReconnect m; videoManager := videoManager m;
     closures := closures m; log := log m |}.

Definition set_audio (v : Audio) (m : AudioManager) :=
  {| players := players m; activePlayerName := activePlayerName m; audio := v;
     currentPlaylist := currentPlaylist m; currentIndex := currentIndex m;
     isPlaying := isPlaying m;
     _stateChangeListeners := _stateChangeListeners m;
     _timeUpdateListeners := _timeUpdateListeners m;
     _pendingReconnect := _pendingReconnect m; videoManager := videoManager m;
     closures := closures m; log := log m |}.

Definition set_currentPlaylist (v : list Track) (m : AudioManager) :=
  {| players := players m; activePlayerName := activePlayerName m;
     audio := audio m; currentPlaylist := v; currentIndex := currentIndex m;
     isPlaying := isPlaying m;
     _stateChangeListeners := _stateChangeListeners m;
     _timeUpdateListeners := _timeUpdateListeners m;
     _pendingReconnect := _pendingReconnect m; videoManager := videoManager m;
     closures := closures m; log := log m |}.

Definition set_currentIndex (v : Z) (m : AudioManager) :=
  {| players := players m; activePlayerName := activePlayerName m;
     audio := audio m; currentPlaylist := currentPlaylist m; currentIndex := v;
     isPlaying := isPlaying m;
     _stateChangeListeners := _stateChangeListeners m;
     _timeUpdateListeners := _timeUpdateListeners m;
     _pendingReconnect := _pendingReconnect m; videoManager := videoManager m;
     closures := closures m; log := log m |}.

Definition set_isPlaying (v : bool) (m : AudioManager) :=
  {| players := players m; activePlayerName := activePlayerName m;
     audio := audio m; currentPlaylist := currentPlaylist m;
     currentIndex := currentIndex m; isPlaying := v;
     _stateChangeListeners := _stateChangeListeners m;
     _timeUpdateListeners := _timeUpdateListeners m;
     _pendingReconnect := _pendingReconnect m; videoManager := videoManager m;
     closures := closures m; log := log m |}.

Definition set_listeners (ch : Channel) (v : list nat) (m : AudioManager) :=
  {| players := players m; activePlayerName := activePlayerName m;
     audio := audio m; currentPlaylist := currentPlaylist m;
     currentIndex := currentIndex m; isPlaying := isPlaying m;
     _stateChangeListeners :=
       match ch with StateChannel => v | TimeChannel => _stateChangeListeners m end;
     _timeUpdateListeners :=
       match ch with StateChannel => _timeUpdateListeners m | TimeChannel => v end;
     _pendingReconnect := _pendingReconnect m; videoManager := videoManager m;
     closures := closures m; log := log m |}.

Definition set_pendingReconnect (v : option PendingReconnect) (m : AudioManager) :=
  {| players := players m; activePlayerName := activePlayerName m;
     audio := audio m; currentPlaylist := currentPlaylist m;
     currentIndex := currentIndex m; isPlaying := isPlaying m;
     _stateChangeListeners := _stateChangeListeners m;
     _timeUpdateListeners := _timeUpdateListeners m;
     _pendingReconnect := v; videoManager := videoManager m;
     closures := closures m; log := log m |}.

Definition emit (o : Output) (m : AudioManager) :=
  {| players := players m; activePlayerName := activePlayerName m;
     audio := audio m; currentPlaylist := currentPlaylist m;
     currentIndex := currentIndex m; isPlaying := isPlaying m;
     _stateChangeListeners := _stateChangeListeners m;
     _timeUpdateListeners := _timeUpdateListeners m;
     _pendingReconnect := _pendingReconnect m; videoManager := videoManager m;
     closures := closures m; log := o :: log m |}.

(** The array of a channel. *)
Definition listeners (ch : Channel) (m : AudioManager) : list nat :=
  match ch with
  | StateChannel => _stateChangeListeners m
  | TimeChannel => _timeUpdateListeners m
  end.

(** ** Array helpers *)

(** [arr[i]] for an integer [i]: [None] is [undefined]. *)
Definition at_index {A} (arr : list A) (i : Z) : option A :=
  if i <? 0 then None else arr !! Z.to_nat i.

(** [arr.findIndex(p)], searching from position [k]. *)
Fixpoint findIndex_from {A} (p : A -> bool) (arr : list A) (k : Z) : Z :=
  match arr with
  | [] => -1
  | x :: rest => if p x then k else findIndex_from p rest (k + 1)
  end.

Definition findIndex {A} (p : A -> bool) (arr : list A) : Z :=
  findIndex_from p arr 0.

(** [arr.indexOf(x)] on an array of callbacks (identity comparison). *)
Definition indexOf (arr : list nat) (x : nat) : Z :=
  findIndex (Nat.eqb x) arr.

(** [arr.splice(idx, 1)]: the array without the element at [idx]. *)
Definition splice1 {A} (arr : list A) (idx : Z) : list A :=
  take (Z.to_nat idx) arr ++ drop (S (Z.to_nat idx)) arr.

(** [o || null] for an optional string: the empty string is falsy. *)
Definition orNull (o : option string) : option string :=
  match o with
  | Some s => if bool_decide (s = EmptyString) then None else Some s
  | None => None
  end.

(** ** Listener registry *)

(** [addStateListener(callback)] and [addTimeListener(callback)]: push the
    callback and return the disposer. *)
Definition addListener (ch : Channel) (callback : nat) (m : AudioManager)
  : AudioManager * Disposer :=
  (set_listeners ch (listeners ch m ++ [callback]) m,
   {| d_channel := ch; d_callback := callback |}).

Definition addStateListener := addListener StateChannel.
Definition addTimeListener := addListener TimeChannel.

(** What a disposer does to its array:
    [idx = arr.indexOf(callback); if (idx > -1) arr.splice(idx, 1)]. *)
Definition dispose (callback : nat) (arr : list nat) : list nat :=
  let idx := indexOf arr callback in
  if idx >? -1 then splice1 arr idx else arr.

(** Calling a disposer. *)
Definition callDisposer (d : Disposer) (m : AudioManager) : AudioManager :=
  set_listeners (d_channel d)
                (dispose (d_callback d) (listeners (d_channel d) m)) m.

Definition runAction (m : AudioManager) (a : ListenerAction) : AudioManager :=
  match a with
  | Subscribe ch cb => fst (addListener ch cb m)
  | Unsubscribe ch cb => callDisposer {| d_channel := ch; d_callback := cb |} m
  end.

(** Calling the callback [cb] with the argument recorded by [o]. *)
Definition invoke (cb : nat) (o : Output) (m : AudioManager) : AudioManager :=
  fold_left runAction (closures m cb) (emit o m).

(** [arr.forEach(f)] on the array of channel [ch]: the number of passes is
    the length read before the first pass, pass [k] reads the array as it is
    then, and a position that no longer exists is passed over.  [n] is the
    number of passes left. *)
Fixpoint forEach_from (ch : Channel) (call : nat -> Output) (n k : nat)
         (m : AudioManager) : AudioManager :=
  match n with
  | O => m
  | S n' =>
      let m' :=
        match listeners ch m !! k with
        | Some cb => invoke cb (call cb) m
        | None => m
        end in
      forEach_from ch call n' (S k) m'
  end.

Definition forEach (ch : Channel) (call : nat -> Output) (m : AudioManager)
  : AudioManager :=
  forEach_from ch call (length (listeners ch m)) 0 m.

Definition _notifyStateListeners (state : ManagerState) (m : AudioManager)
  : AudioManager :=
  forEach StateChannel (fun cb => StateListenerCall cb state) m.

Definition _notifyTimeListeners (time : TimeInfo) (m : AudioManager)
  : AudioManager :=
  forEach TimeChannel (fun cb => TimeListenerCall cb time) m.

(** ** AudioManager *)

(** The instance built by the constructor, given the closures of the
    callbacks that exist and whether [window.videoManager] does. *)
Definition new_AudioManager (video : bool) (cl : nat -> list ListenerAction)
  : AudioManager :=
  {| players := ∅; activePlayerName := None;
     audio := {| a_src := []; a_currentTime := 0%Q; a_duration := None |};
     currentPlaylist := []; currentIndex := 0; isPlaying := false;
     _stateChangeListeners := []; _timeUpdateListeners := [];
     _pendingReconnect := None; videoManager := video; closures := cl;
     log := [] |}.

Definition getCurrentTrack (m : AudioManager) : TrackValue :=
  if bool_decide (length (currentPlaylist m) = 0%nat) then TrackNull
  else match at_index (currentPlaylist m) (currentIndex m) with
       | Some t => TrackObject t
       | None => TrackUndefined
       end.

(** [this.audio.duration || 0]. *)
Definition durationOrZero (a : Audio) : Q :=
  match a_duration a with Some d => d | None => 0%Q end.

Definition getState (m : AudioManager) : ManagerState :=
  let player :=
    match activePlayerName m with
    | Some n => if bool_decide (n = EmptyString) then None else players m !! n
    | None => None
    end in
  {| st_isPlaying := isPlaying m;
     st_currentTrack := getCurrentTrack m;
     st_currentIndex := currentIndex m;
     st_playlistName := activePlayerName m;
     st_playlistLength := length (currentPlaylist m);
     st_currentTime := a_currentTime (audio m);
     st_duration := durationOrZero (audio m);
     st_artist := orNull (player ≫= p_artist);
     st_year := orNull (player ≫= p_year) |}.

Definition notifyStateChange (m : AudioManager) : AudioManager :=
  let state := getState m in
  _notifyStateListeners state (emit (OnStateChange state) m).

(** [getPlaylists()].  The array is listed in the order of the map, not in
    the insertion order of the object's keys. *)
Definition getPlaylists (m : AudioManager) : list PlaylistInfo :=
  (fun kv : string * Player =>
     {| pi_name := kv.1;
        pi_trackCount := length (p_playlist kv.2);
        pi_isActive := bool_decide (Some kv.1 = activePlayerName m) |})
    <$> map_to_list (players m).

Definition register (name : string) (playlist : list Track) (options : Options)
           (m : AudioManager) : AudioManager :=
  let existingWaveforms :=
    match players m !! name with
    | Some p => p_waveforms p
    | None => ∅
    end in
  let m1 :=
    set_players
      (<[name := {| p_name := name; p_playlist := playlist;
                    p_options := options;
                    p_artist := orNull (opt_artist options);
                    p_year := orNull (opt_year options);
                    p_waveforms := existingWaveforms |}]> (players m)) m in
  emit (OnPlaylistChange (getPlaylists m1)) m1.

Definition pause (m : AudioManager) : AudioManager := emit AudioPause m.

Definition play (m : AudioManager) : AudioManager :=
  if bool_decide (length (currentPlaylist m) = 0%nat) then m
  else
    let m1 := if videoManager m then emit VideoPauseAll m else m in
    emit AudioPlay m1.

Definition unregister (name : string) (m : AudioManager) : AudioManager :=
  let m1 :=
    if bool_decide (activePlayerName m = Some name) then
      set_currentPlaylist [] (set_activePlayerName None (pause m))
    else m in
  let m2 := set_players (delete name (players m1)) m1 in
  emit (OnPlaylistChange (getPlaylists m2)) m2.

(** [AudioPlayer.destroy()]: call the stored disposers. *)
Definition destroy (w : AudioPlayer) (m : AudioManager) : AudioManager :=
  let m1 :=
    match _unsubscribeState w with
    | Some cb => callDisposer {| d_channel := StateChannel; d_callback := cb |} m
    | None => m
    end in
  match _unsubscribeTime w with
  | Some cb => callDisposer {| d_channel := TimeChannel; d_callback := cb |} m1
  | None => m1
  end.

Definition destroyPlayer (m : AudioManager) (player : Player) : AudioManager :=
  match opt_player (p_options player) with
  | Some w => destroy w m
  | None => m
  end.

Definition clearPlayers (m : AudioManager) : AudioManager :=
  let wasActive := activePlayerName m in
  let wasPlaying := isPlaying m in
  let currentSrc := a_src (audio m) in
  let currentTime := a_currentTime (audio m) in
  let m1 := fold_left destroyPlayer ((map_to_list (players m)).*2) m in
  let m2 := set_players ∅ m1 in
  let m3 :=
    set_pendingReconnect
      (Some {| pr_playerName := wasActive; pr_src := currentSrc;
               pr_time := currentTime; pr_playing := wasPlaying |}) m2 in
  emit (OnPlaylistChange (getPlaylists m3)) m3.

Definition tryReconnect (name : string) (m : AudioManager)
  : bool * AudioManager :=
  match _pendingReconnect m with
  | None => (false, m)
  | Some pending =>
      if negb (bool_decide (pr_playerName pending = Some name)) then (false, m)
      else
        match players m !! name with
        | None => (false, m)
        | Some player =>
            let matchIndex :=
              findIndex (fun track => JsString.includes (pr_src pending) (src track))
                        (p_playlist player) in
            if matchIndex >=? 0 then
              (true,
               notifyStateChange
                 (set_pendingReconnect None
                    (set_currentIndex matchIndex
                       (set_currentPlaylist (p_playlist player)
                          (set_activePlayerName (Some name) m)))))
            else (false, set_pendingReconnect None m)
        end
  end.

Definition loadTrack (index : Z) (m : AudioManager) : AudioManager :=
  if (index <? 0) || (index >=? Z.of_nat (length (currentPlaylist m))) then m
  else
    match at_index (currentPlaylist m) index with
    | None => m
    | Some track =>
        let m1 := set_currentIndex index m in
        let a := audio m1 in
        let m2 :=
          set_audio {| a_src := src track; a_currentTime := a_currentTime a;
                       a_duration := a_duration a |} m1 in
        notifyStateChange m2
    end.

Definition setActivePlaylist (name : string) (m : AudioManager) : AudioManager :=
  match players m !! name with
  | None => m
  | Some player =>
      notifyStateChange
        (loadTrack 0
           (set_currentPlaylist (p_playlist player)
              (set_activePlayerName (Some name) m)))
  end.

Definition playPlaylist (name : string) (startIndex : Z) (m : AudioManager)
  : AudioManager :=
  match players m !! name with
  | None => m
  | Some player =>
      play (loadTrack startIndex
              (set_currentPlaylist (p_playlist player)
                 (set_activePlayerName (Some name) m)))
  end.

Definition togglePlay (m : AudioManager) : AudioManager :=
  if isPlaying m then pause m else play m.

Definition next (m : AudioManager) : AudioManager :=
  if currentIndex m <? Z.of_nat (length (currentPlaylist m)) - 1 then
    play (loadTrack (currentIndex m + 1) m)
  else
    pause (loadTrack 0 m).

Definition setWaveform (playerName : string) (trackIndex : Z)
           (data : WaveformData) (m : AudioManager) : AudioManager :=
  match players m !! playerName with
  | Some p =>
      set_players
        (<[playerName :=
             {| p_name := p_name p; p_playlist := p_playlist p;
                p_options := p_options p; p_artist := p_artist p;
                p_year := p_year p;
                p_waveforms := <[trackIndex := data]> (p_waveforms p) |}]>
           (players m)) m
  | None => m
  end.

Definition getWaveform (playerName : string) (trackIndex : Z)
           (m : AudioManager) : option WaveformData :=
  players m !! playerName ≫= fun p => p_waveforms p !! trackIndex.

(** ** Events of the media element ([bindAudioEvents]) *)

(** [Timeupdate t] and [Loadedmetadata d] carry what the element reports
    when the event fires: its position, its duration.  [PlayRejected] is the
    rejection of the promise returned by [audio.play()]. *)
Inductive AudioEvent :=
| Timeupdate (t : Q)
| Ended
| Play
| Pause
| Error
| Loadedmetadata (d : Q)
| PlayRejected.

Definition timeInfo (m : AudioManager) : TimeInfo :=
  {| ti_currentTime := a_currentTime (audio m);
     ti_duration := durationOrZero (audio m) |}.

Definition dispatch (m : AudioManager) (e : AudioEvent) : AudioManager :=
  match e with
  | Timeupdate t =>
      let m1 :=
        set_audio {| a_src := a_src (audio m); a_currentTime := t;
                     a_duration := a_duration (audio m) |} m in
      let time := timeInfo m1 in
      _notifyTimeListeners time (emit (OnTimeUpdate time) m1)
  | Ended => next m
  | Play => notifyStateChange (set_isPlaying true m)
  | Pause => notifyStateChange (set_isPlaying false m)
  | Error => notifyStateChange (set_isPlaying false (emit ConsoleError m))
  | Loadedmetadata d =>
      let m1 :=
        set_audio {| a_src := a_src (audio m);
                     a_currentTime := a_currentTime (audio m);
                     a_duration := Some d |} m in
      let m2 := notifyStateChange m1 in
      emit (OnTimeUpdate (timeInfo m2)) m2
  | PlayRejected => notifyStateChange (set_isPlaying false (emit ConsoleError m))
  end.

(** ** Names the registry object inherits *)

(** The property names of [Object.prototype], which the object created by
    [this.players = {}] inherits. *)
Definition objectPrototypeKeys : list string :=
  [ "__proto__"; "constructor"; "hasOwnProperty"; "isPrototypeOf";
    "propertyIsEnumerable"; "toLocaleString"; "toString"; "valueOf";
    "__defineGetter__"; "__defineSetter__"; "__lookupGetter__";
    "__lookupSetter__" ]%string.

(** The value of [this.players[name]]: the player registered under [name],
    else the member of [Object.prototype] of that name (a function, and
    [Object.prototype] itself under [__proto__]: a truthy value with no
    [playlist] and no [waveforms]), else [undefined]. *)
Inductive PlayersEntry :=
| OwnPlayer (player : Player)
| InheritedMember
| Undefined.

Definition lookupPlayer (m : AudioManager) (name : string) : PlayersEntry :=
  match players m !! name with
  | Some player => OwnPlayer player
  | None =>
      if bool_decide (name ∈ objectPrototypeKeys) then InheritedMember
      else Undefined
  end.

(** The completion of a call that may throw. *)
Inductive Completion (A : Type) :=
| Returns (v : A)
| ThrowsURIError
| ThrowsTypeError.
Arguments Returns {A} v.
Arguments ThrowsURIError {A}.
Arguments ThrowsTypeError {A}.

(** [tryReconnect(name)] with the lookup of [name] as the registry object
    performs it.  Of an inherited member, [player.playlist] is [undefined]
    and [player.playlist.findIndex] throws TypeError, before any field of
    the manager is written. *)
Definition tryReconnect_call (name : string) (m : AudioManager)
  : Completion (bool * AudioManager) :=
  match _pendingReconnect m with
  | None => Returns (false, m)
  | Some pending =>
      if negb (bool_decide (pr_playerName pending = Some name))
      then Returns (false, m)
      else
        match lookupPlayer m name with
        | Undefined => Returns (false, m)
        | InheritedMember => ThrowsTypeError
        | OwnPlayer player =>
            let matchIndex :=
              findIndex (fun track => JsString.includes (pr_src pending) (src track))
                        (p_playlist player) in
            if matchIndex >=? 0 then
              Returns
                (true,
                 notifyStateChange
                   (set_pendingReconnect None
                      (set_currentIndex matchIndex
                         (set_currentPlaylist (p_playlist player)
                            (set_activePlayerName (Some name) m)))))
            else Returns (false, set_pendingReconnect None m)
        end
  end.

(** ** Index translator of the [AudioPlayer] widget *)

(** [arr.findIndex(t => decodeURIComponent(t.src) === wanted)] from position
    [k]: the predicate is evaluated on each track in turn until it holds,
    and throws where the track's [src] does not decode. *)
Fixpoint findDecodedIndex_from (wanted : JsString.t) (arr : list Track) (k : Z)
  : Completion Z :=
  match arr with
  | [] => Returns (-1)
  | t :: rest =>
      match URI.decodeURIComponent (src t) with
      | None => ThrowsURIError
      | Some d =>
          if JsString.eqb d wanted then Returns k
          else findDecodedIndex_from wanted rest (k + 1)
      end
  end.

(** [!this.masterPlaylist]: [null] and the empty string are falsy. *)
Definition masterOf (this : AudioPlayer) : option string :=
  orNull (ap_masterPlaylist this).

Definition findMasterIndex (this : AudioPlayer)
           (audioManager : option AudioManager) (localIndex : Z)
  : Completion Z :=
  match masterOf this, audioManager with
  | Some master, Some mgr =>
      match at_index (ap_playlist this) localIndex with
      | None => Returns (-1)
      | Some localTrack =>
          match lookupPlayer mgr master with
          | Undefined => Returns (-1)
          | InheritedMember =>
              match URI.decodeURIComponent (src localTrack) with
              | None => ThrowsURIError
              | Some localSrc => ThrowsTypeError
              end
          | OwnPlayer masterPlayer =>
              match URI.decodeURIComponent (src localTrack) with
              | None => ThrowsURIError
              | Some localSrc =>
                  findDecodedIndex_from localSrc (p_playlist masterPlayer) 0
              end
          end
      end
  | _, _ => Returns (-1)
  end.

Definition findLocalIndex (this : AudioPlayer)
           (audioManager : option AudioManager) (masterIndex : Z)
  : Completion Z :=
  match masterOf this, audioManager with
  | Some master, Some mgr =>
      match lookupPlayer mgr master with
      | Undefined => Returns (-1)
      | InheritedMember => ThrowsTypeError
      | OwnPlayer masterPlayer =>
          match at_index (p_playlist masterPlayer) masterIndex with
          | None => Returns (-1)
          | Some masterTrack =>
              match URI.decodeURIComponent (src masterTrack) with
              | None => ThrowsURIError
              | Some masterSrc =>
                  findDecodedIndex_from masterSrc (ap_playlist this) 0
              end
          end
      end
  | _, _ => Returns (-1)
  end.

(** ** Observations on the log *)

(** The snapshot carried by a state broadcast (the legacy callback or a
    listener call). *)
Definition stateOf (o : Output) : option ManagerState :=
  match o with
  | OnStateChange s => Some s
  | StateListenerCall _ s => Some s
  | _ => None
  end.

(** Every state broadcast among [new] carries a snapshot satisfying [P]. *)
Definition broadcasts (P : ManagerState -> Prop) (new : list Output) : Prop :=
  Forall (fun o => forall s, stateOf o = Some s -> P s) new.

(** A request to the media element. *)
Definition isAudioRequest (o : Output) : bool :=
  match o with
  | AudioPlay | AudioPause => true
  | _ => false
  end.

(** The two states agree on everything but the listener arrays and the
    log. *)
Definition same_core (m m' : AudioManager) : Prop :=
  players m' = players m /\
  activePlayerName m' = activePlayerName m /\
  audio m' = audio m /\
  currentPlaylist m' = currentPlaylist m /\
  currentIndex m' = currentIndex m /\
  isPlaying m' = isPlaying m /\
  _pendingReconnect m' = _pendingReconnect m /\
  videoManager m' = videoManager m /\
  closures m' = closures m.

(** The body of a callback leaves the array of channel [ch] alone or only
    pushes to it. *)
Definition keeps (ch : Channel) (a : ListenerAction) : Prop :=
  match a with
  | Subscribe _ _ => True
  | Unsubscribe ch' _ => ch' <> ch
  end.

(** The callbacks that a body pushes on the array of channel [ch]. *)
Definition pushed (ch : Channel) (body : list ListenerAction) : list nat :=
  omap (fun a => match a with
                 | Subscribe ch' cb =>
                     if bool_decide (ch' = ch) then Some cb else None
                 | Unsubscribe _ _ => None
                 end) body.

(** [f] leaves the active playlist name alone, and every state broadcast it
    makes reports that name. *)
Definition keeps_active (f : AudioManager -> AudioManager) : Prop :=
  forall m,
    activePlayerName (f m) = activePlayerName m /\
    exists new,
      log (f m) = new ++ log m /\
      broadcasts (fun s => st_playlistName s = activePlayerName m) new.

(** [f] changes nothing but the listener arrays and the log, and makes no
    request to the media element. *)
Definition only_notifies (f : AudioManager -> AudioManager) : Prop :=
  forall m,
    same_core m (f m) /\
    exists new,
      log (f m) = new ++ log m /\
      Forall (fun o => isAudioRequest o = false) new.

(** A track whose [src] decodes to [d]. *)
Definition decodesTo (d : JsString.t) (t : Track) : Prop :=
  URI.decodeURIComponent (src t) = Some d.

(** A track whose [src] decodes, to something other than [d]. *)
Definition decodesApartFrom (d : JsString.t) (t : Track) : Prop :=
  exists d', URI.decodeURIComponent (src t) = Some d' /\ d' <> d.

(** ** Sample states *)

Module Sample.

Definition track (name : string) (path : string) : Track :=
  {| title := name; src := JsString.lit path |}.

Definition t1 := track "One" "/a/1.mp3".
Definition t2 := track "Two" "/a/2.mp3".
Definition t3 := track "Three" "/b/3.mp3".
Definition t4 := track "Four" "/b/4.mp3".

Definition noOptions : Options :=
  {| opt_player := None; opt_artist := None; opt_year := None |}.

Definition playerOf (name : string) (tracks : list Track) : Player :=
  {| p_name := name; p_playlist := tracks; p_options := noOptions;
     p_artist := None; p_year := None; p_waveforms := ∅ |}.

(** Callbacks that do nothing to the listener arrays. *)
Definition quiet : nat -> list ListenerAction := fun _ => [].

(** Callback 1 subscribes callback 9 to the state channel. *)
Definition adding : nat -> list ListenerAction :=
  fun cb => if Nat.eqb cb 1 then [Subscribe StateChannel 9%nat] else [].

(** Callback 2 calls its own state disposer. *)
Definition leaving : nat -> list ListenerAction :=
  fun cb => if Nat.eqb cb 2 then [Unsubscribe StateChannel 2%nat] else [].

Definition subscribeAll (cbs : list nat) (m : AudioManager) : AudioManager :=
  fold_left (fun m cb => (addStateListener cb m).1) cbs m.

(** Playlists A = [t1, t2] and B = [t3, t4] registered, nothing playing. *)
Definition registered : AudioManager :=
  register "B" [t3; t4] noOptions
    (register "A" [t1; t2] noOptions (new_AudioManager false quiet)).

(** A is playing its first track. *)
Definition playingA : AudioManager :=
  dispatch (playPlaylist "A" 0 registered) Play.

(** A is playing its last track. *)
Definition playingLastOfA : AudioManager :=
  dispatch (playPlaylist "A" 1 registered) Play.

(** The registry was cleared while A was playing its first track. *)
Definition cleared : AudioManager := clearPlayers playingA.

(** After the clear, A came back with tracks that are not the one loaded. *)
Definition remounted : AudioManager :=
  register "A" [t3; t4] noOptions cleared.

(** Four state listeners, the first of which adds one when called. *)
Definition withAdder : AudioManager :=
  subscribeAll [1; 2; 3; 4]%nat (new_AudioManager false adding).

(** Four state listeners, the second of which unsubscribes itself when
    called. *)
Definition withLeaver : AudioManager :=
  subscribeAll [1; 2; 3; 4]%nat (new_AudioManager false leaving).

(** The same callback registered twice on the state channel. *)
Definition registeredTwice : AudioManager :=
  subscribeAll [7; 7]%nat (new_AudioManager false quiet).

(** A widget aliasing the master playlist M. *)
Definition aliasOf (tracks : list Track) : AudioPlayer :=
  {| ap_playlist := tracks; ap_name := "Album";
     ap_masterPlaylist := Some "M"%string;
     _unsubscribeState := None; _unsubscribeTime := None |}.

Definition withMaster (tracks : list Track) : AudioManager :=
  register "M" tracks noOptions (new_AudioManager false quiet).




End Sample.

(** * The rest of the manager, the widget and the router *)

(** ** AudioManager: stepping back, the current waveform *)

(** [previous()].  The position is compared with 3 seconds. *)
Definition previous (m : AudioManager) : AudioManager :=
  if negb (Qle_bool (a_currentTime (audio m)) 3) then
    set_audio {| a_src := a_src (audio m); a_currentTime := 0%Q;
                 a_duration := a_duration (audio m) |} m
  else if currentIndex m >? 0 then
    let m1 := loadTrack (currentIndex m - 1) m in
    if isPlaying m1 then play m1 else m1
  else m.

Definition getCurrentWaveform (m : AudioManager) : option WaveformData :=
  match activePlayerName m with
  | Some n =>
      if bool_decide (n = EmptyString) then None
      else getWaveform n (currentIndex m) m
  | None => None
  end.

(** ** AudioManager: playlist data for the transport dropdown *)

(** The object returned by [getPlaylistData]. *)
Record PlaylistData := {
  pd_name : string;
  pd_artist : option string;
  pd_year : option string;
  pd_tracks : list Track;
  pd_currentIndex : Z
}.

(** The object kept in [this._cachedActivePlaylist]. *)
Record CachedPlaylist := {
  cp_name : string;
  cp_artist : option string;
  cp_year : option string;
  cp_tracks : list Track
}.

(** The manager together with its field [_cachedActivePlaylist], which only
    [getPlaylistData] writes. *)
Record CachingManager := {
  manager : AudioManager;
  _cachedActivePlaylist : option CachedPlaylist
}.

(** An operation of the manager, on the manager with its cache. *)
Definition onManager (f : AudioManager -> AudioManager) (cm : CachingManager)
  : CachingManager :=
  {| manager := f (manager cm);
     _cachedActivePlaylist := _cachedActivePlaylist cm |}.

Definition getPlaylistData (name : string) (cm : CachingManager)
  : option PlaylistData * CachingManager :=
  let m := manager cm in
  match players m !! name with
  | None => (None, cm)
  | Some player =>
      let isActive := bool_decide (Some name = activePlayerName m) in
      let data :=
        {| pd_name := p_name player; pd_artist := p_artist player;
           pd_year := p_year player; pd_tracks := p_playlist player;
           pd_currentIndex := if isActive then currentIndex m else -1 |} in
      (Some data,
       if isActive then
         {| manager := m;
            _cachedActivePlaylist :=
              Some {| cp_name := p_name player; cp_artist := p_artist player;
                      cp_year := p_year player;
                      cp_tracks := p_playlist player |} |}
       else cm)
  end.

Definition getActivePlaylistData (cm : CachingManager)
  : option PlaylistData * CachingManager :=
  let m := manager cm in
  match activePlayerName m with
  | None => (None, cm)
  | Some active =>
      if bool_decide (active = EmptyString) then (None, cm)
      else
        match getPlaylistData active cm with
        | (Some playerData, cm') => (Some playerData, cm')
        | (None, cm') =>
            match _cachedActivePlaylist cm' with
            | Some cached =>
                if bool_decide (cp_name cached = active) then
                  (Some {| pd_name := cp_name cached;
                           pd_artist := cp_artist cached;
                           pd_year := cp_year cached;
                           pd_tracks := cp_tracks cached;
                           pd_currentIndex := currentIndex m |}, cm')
                else (None, cm')
            | None => (None, cm')
            end
        end
  end.

(** ** AudioManager: its interface as commands *)

(** A call of a method of the manager, or an event of the media element. *)
Inductive Command :=
| DoRegister (name : string) (playlist : list Track) (options : Options)
| DoUnregister (name : string)
| DoClearPlayers
| DoTryReconnect (name : string)
| DoSetActivePlaylist (name : string)
| DoPlayPlaylist (name : string) (startIndex : Z)
| DoLoadTrack (index : Z)
| DoPlay
| DoPause
| DoTogglePlay
| DoNext
| DoPrevious
| DoSetWaveform (playerName : string) (trackIndex : Z) (data : WaveformData)
| DoAddListener (ch : Channel) (callback : nat)
| DoCallDisposer (d : Disposer)
| Fire (e : AudioEvent).

Definition exec (m : AudioManager) (c : Command) : AudioManager :=
  match c with
  | DoRegister name playlist options => register name playlist options m
  | DoUnregister name => unregister name m
  | DoClearPlayers => clearPlayers m
  | DoTryReconnect name => (tryReconnect name m).2
  | DoSetActivePlaylist name => setActivePlaylist name m
  | DoPlayPlaylist name startIndex => playPlaylist name startIndex m
  | DoLoadTrack index => loadTrack index m
  | DoPlay => play m
  | DoPause => pause m
  | DoTogglePlay => togglePlay m
  | DoNext => next m
  | DoPrevious => previous m
  | DoSetWaveform playerName trackIndex data =>
      setWaveform playerName trackIndex data m
  | DoAddListener ch callback => (addListener ch callback m).1
  | DoCallDisposer d => callDisposer d m
  | Fire e => dispatch m e
  end.

(** The commands that may replace or drop the current playlist. *)
Definition selects (c : Command) : bool :=
  match c with
  | DoUnregister _ | DoTryReconnect _ | DoSetActivePlaylist _
  | DoPlayPlaylist _ _ => true
  | _ => false
  end.

(** The media element has loaded the track that the session points to. *)
Definition synced (m : AudioManager) : Prop :=
  exists t, at_index (currentPlaylist m) (currentIndex m) = Some t /\
            a_src (audio m) = src t.

(** From [m] to [m'] the registry, the active name, the current playlist, the
    pending record and [isPlaying] are kept, and a non-negative index stays
    non-negative: what a playback step may change is the index, the media
    element, the listener arrays and the log. *)
Definition playback_step (m m' : AudioManager) : Prop :=
  players m' = players m /\
  activePlayerName m' = activePlayerName m /\
  currentPlaylist m' = currentPlaylist m /\
  isPlaying m' = isPlaying m /\
  _pendingReconnect m' = _pendingReconnect m /\
  videoManager m' = videoManager m /\
  closures m' = closures m /\
  (0 <= currentIndex m -> 0 <= currentIndex m').

(** The invariant of the states the interface can reach. *)
Definition well_formed (m : AudioManager) : Prop :=
  0 <= currentIndex m /\
  (activePlayerName m = None -> currentPlaylist m = []).

(** The callback of the disposer that a widget holds for a channel. *)
Definition storedCallback (ch : Channel) (w : AudioPlayer) : option nat :=
  match ch with
  | StateChannel => _unsubscribeState w
  | TimeChannel => _unsubscribeTime w
  end.

(** ** AudioPlayer: what a widget shows, and its play button *)

(** The fields of the widget that [handleManagerState] writes; the rest of
    the function redraws the document from them. *)
Record WidgetView := { v_isPlaying : bool; v_currentIndex : Z }.

(** [this.masterPlaylist || this.name]. *)
Definition targetPlaylist (this : AudioPlayer) : string :=
  match masterOf this with
  | Some master => master
  | None => ap_name this
  end.

Definition handleManagerState (this : AudioPlayer)
           (audioManager : option AudioManager) (view : WidgetView)
           (state : ManagerState) : Completion WidgetView :=
  if bool_decide (st_playlistName state = Some (targetPlaylist this)) then
    let shown (localIndex : Z) :=
      let isTrackInThisAlbum := localIndex >=? 0 in
      {| v_isPlaying := st_isPlaying state && isTrackInThisAlbum;
         v_currentIndex := if isTrackInThisAlbum then localIndex else 0 |} in
    match masterOf this with
    | Some _ =>
        match findLocalIndex this audioManager (st_currentIndex state) with
        | Returns localIndex => Returns (shown localIndex)
        | ThrowsURIError => ThrowsURIError
        | ThrowsTypeError => ThrowsTypeError
        end
    | None => Returns (shown (st_currentIndex state))
    end
  else
    Returns {| v_isPlaying := false; v_currentIndex := v_currentIndex view |}.

(** [AudioPlayer.togglePlay()]: the play button of a widget.  [None] stands
    for a missing [window.audioManager]. *)
Definition AudioPlayer_togglePlay (this : AudioPlayer)
           (audioManager : option AudioManager)
  : Completion (option AudioManager) :=
  match audioManager with
  | None => Returns None
  | Some mgr =>
      match masterOf this with
      | Some master =>
          match findLocalIndex this audioManager (currentIndex mgr) with
          | ThrowsURIError => ThrowsURIError
          | ThrowsTypeError => ThrowsTypeError
          | Returns localIndex =>
              let isPlayingThisAlbum :=
                bool_decide (activePlayerName mgr = Some master)
                && (localIndex >=? 0) in
              if isPlayingThisAlbum then Returns (Some (togglePlay mgr))
              else
                match findMasterIndex this audioManager 0 with
                | ThrowsURIError => ThrowsURIError
                | ThrowsTypeError => ThrowsTypeError
                | Returns masterIndex =>
                    if masterIndex >=? 0
                    then Returns (Some (playPlaylist master masterIndex mgr))
                    else Returns (Some mgr)
                end
          end
      | None =>
          if bool_decide (activePlayerName mgr = Some (ap_name this))
          then Returns (Some (togglePlay mgr))
          else Returns (Some (playPlaylist (ap_name this) 0 mgr))
      end
  end.

(** ** AudioPlayer: where the waveform of a track is looked for *)

Module Path.

Definition SLASH : N := 47%N.
Definition DOT : N := 46%N.

(** [s.split(sep)] for a separator of one code unit. *)
Fixpoint split (sep : N) (s : JsString.t) : list JsString.t :=
  match s with
  | [] => [[]]
  | c :: rest =>
      if (c =? sep)%N then [] :: split sep rest
      else match split sep rest with
           | first :: others => (c :: first) :: others
           | [] => [[c]]
           end
  end.

(** [parts.join(sep)]. *)
Fixpoint join (sep : N) (parts : list JsString.t) : JsString.t :=
  match parts with
  | [] => []
  | [p] => p
  | p :: rest => p ++ sep :: join sep rest
  end.

(** The pattern [\.[^.]+$] matches the whole of [s]. *)
Definition isExtension (s : JsString.t) : bool :=
  match s with
  | c :: rest =>
      (c =? DOT)%N && negb (bool_decide (rest = []))
      && forallb (fun x => negb (x =? DOT)%N) rest
  | [] => false
  end.

(** [s.replace(/\.[^.]+$/, '')]: the leftmost match is removed. *)
Fixpoint removeExtension (s : JsString.t) : JsString.t :=
  if isExtension s then []
  else match s with
       | [] => []
       | c :: rest => c :: removeExtension rest
       end.

(** [s.replace(/^\//, '')]. *)
Definition removeLeadingSlash (s : JsString.t) : JsString.t :=
  match s with
  | c :: rest => if (c =? SLASH)%N then rest else s
  | [] => []
  end.

(** [s.replace(/\.html$/, '')]. *)
Fixpoint removeHtmlSuffix (s : JsString.t) : JsString.t :=
  if JsString.eqb s (JsString.lit ".html") then []
  else match s with
       | [] => []
       | c :: rest => c :: removeHtmlSuffix rest
       end.

End Path.

(** The list [pathsToTry] built by [loadWaveformJson]. *)
Definition pathsToTry (audioSrc : JsString.t) : list JsString.t :=
  let parts0 := Path.split Path.SLASH audioSrc in
  let filename := Path.removeExtension (List.last parts0 []) in
  let parts := removelast parts0 in
  let dir := Path.join Path.SLASH parts in
  (dir ++ JsString.lit "/waveforms/" ++ filename ++ JsString.lit ".json")
  :: (if (1 <? length parts)%nat then
        let parentDir := Path.join Path.SLASH (removelast parts) in
        [parentDir ++ JsString.lit "/waveforms/" ++ filename
                   ++ JsString.lit ".json"]
      else []).

(** [loadWaveformJson(audioSrc)].  [fetchJson path] is the data obtained when
    the request for [path] succeeds with an OK response whose body parses,
    and [None] otherwise (a failed request is caught, a response that is not
    OK is passed over). *)
Definition loadWaveformJson (fetchJson : JsString.t -> option WaveformData)
           (audioSrc : JsString.t) : option WaveformData :=
  (fix try (paths : list JsString.t) : option WaveformData :=
     match paths with
     | [] => None
     | jsonPath :: rest =>
         match fetchJson jsonPath with
         | Some data => Some data
         | None => try rest
         end
     end) (pathsToTry audioSrc).

(** ** Router *)

(** The fields of a [Router] that its path functions read. *)
Record Router := { basePath : JsString.t; defaultPage : JsString.t }.

(** [o || fallback] for an optional string. *)
Definition orDefault (o : option JsString.t) (fallback : JsString.t)
  : JsString.t :=
  match o with
  | Some (c :: s) => c :: s
  | _ => fallback
  end.

(** The constructor, given [options.basePath] and [options.defaultPage]. *)
Definition new_Router (optBasePath optDefaultPage : option JsString.t)
  : Router :=
  {| basePath := orDefault optBasePath (JsString.lit "/pages");
     defaultPage := orDefault optDefaultPage (JsString.lit "home") |}.

Definition pathToPage (this : Router) (path : JsString.t) : JsString.t :=
  if JsString.eqb path (JsString.lit "/") || JsString.eqb path []
  then defaultPage this
  else
    let page := Path.removeHtmlSuffix (Path.removeLeadingSlash path) in
    if JsString.eqb page (JsString.lit "index") || JsString.eqb page []
    then defaultPage this
    else page.

(** The path fetched by [loadPage] for a page name. *)
Definition pagePath (this : Router) (pageName : JsString.t) : JsString.t :=
  basePath this ++ JsString.lit "/" ++ pageName ++ JsString.lit ".html".

(** The path pushed to the history by [loadPage] for a page name. *)
Definition displayPath (this : Router) (pageName : JsString.t) : JsString.t :=
  if JsString.eqb pageName (defaultPage this) then JsString.lit "/"
  else JsString.lit "/" ++ pageName ++ JsString.lit ".html".

(** Whether [updateActiveNav] marks a link to [linkPage] while [pageName] is
    shown. *)
Definition isActiveNav (pageName linkPage : JsString.t) : bool :=
  JsString.eqb pageName linkPage
  || JsString.startsWith pageName (linkPage ++ JsString.lit "/").

(** ** More sample states *)

Module Fixture.

Import Sample.



(** A is on its last track, and the media element holds the source of that
    track as an absolute URL. *)
Definition holdingAbsolute : AudioManager :=
  set_audio {| a_src := JsString.lit "https://example.org/a/2.mp3";
               a_currentTime := 0%Q; a_duration := None |}
            playingLastOfA.

(** A widget holding the disposers of callbacks 5 (state) and 6 (time). *)
Definition widget : AudioPlayer :=
  {| ap_playlist := [t1; t2]; ap_name := "W"; ap_masterPlaylist := None;
     _unsubscribeState := Some 5%nat; _unsubscribeTime := Some 6%nat |}.

Definition widgetOptions : Options :=
  {| opt_player := Some widget; opt_artist := Some "Artist"%string;
     opt_year := None |}.

(** The widget registered and subscribed on both channels, beside another
    state listener. *)
Definition withWidget : AudioManager :=
  (addTimeListener 6
     (addStateListener 5
        (addStateListener 4
           (register "W" [t1; t2] widgetOptions
                     (new_AudioManager false quiet))).1).1).1.

(** Widgets showing the playlists A and B. *)
Definition widgetOf (name : string) (tracks : list Track) : AudioPlayer :=
  {| ap_playlist := tracks; ap_name := name; ap_masterPlaylist := None;
     _unsubscribeState := None; _unsubscribeTime := None |}.

(** A playing, with nothing cached yet. *)
Definition uncached : CachingManager :=
  {| manager := playingA; _cachedActivePlaylist := None |}.

(** An alias of the master playlist M = [t1, t2] showing only [t2]. *)
Definition album : AudioPlayer := aliasOf [t2].

Definition master : AudioManager := withMaster [t1; t2].

(** A broadcast saying that M plays its second track. *)
Definition masterPlaysSecond : ManagerState :=
  getState (dispatch (playPlaylist "M" 1 master) Play).

Definition home : Router := new_Router None None.

End Fixture.


(** * Properties *)

(** ** Decoding *)

Lemma continuation_length j : forall s bs r,
  URI.continuation j s = Some (bs, r) -> (length r <= length s)%nat.
Proof.
  induction j as [|j IH]; intros s bs r H; simpl in H.
  - by inversion H.
  - destruct s as [|p [|h1 [|h2 rest]]]; try discriminate.
    destruct (p =? URI.PERCENT)%N; try discriminate.
    destruct (URI.ParseHexOctet h1 h2); try discriminate.
    destruct (URI.continuation j rest) as [[bs' r']|] eqn:E; try discriminate.
    inversion H; subst. apply IH in E. simpl. lia.
Qed.

(** The fuel given by [decodeURIComponent] is enough: more fuel never changes
    the result, so [None] always stands for the exception. *)
Lemma Decode_fuel : forall f1 f2 s,
  (length s <= f1)%nat -> (length s <= f2)%nat ->
  URI.Decode f1 s = URI.Decode f2 s.
Proof.
  induction f1 as [|f1 IH]; intros f2 s H1 H2.
  - destruct s; simpl in H1; [by destruct f2 | lia].
  - destruct s as [|C rest]; [by destruct f2|].
    destruct f2 as [|f2]; [simpl in H2; lia|].
    simpl in H1, H2. cbn [URI.Decode].
    destruct (C =? URI.PERCENT)%N.
    + destruct rest as [|h1 [|h2 rest']]; try reflexivity.
      destruct (URI.ParseHexOctet h1 h2) as [B|]; try reflexivity.
      simpl in H1, H2.
      assert (Hc : forall n conts r,
                 URI.continuation n rest' = Some (conts, r) ->
                 URI.Decode f1 r = URI.Decode f2 r).
      { intros n conts r E. apply continuation_length in E.
        apply IH; lia. }
      destruct (URI.leadingOnes B) as [|[|[|[|[|k]]]]]; try reflexivity;
        [ f_equal; apply IH; lia | | | ];
        match goal with
        | |- context [URI.continuation ?n rest'] =>
            destruct (URI.continuation n rest') as [[conts r]|] eqn:E; [|done]
        end;
        (match goal with
         | |- context [URI.utf8CodePoint ?n B ?c] =>
             destruct (URI.utf8CodePoint n B c); [|done]
         end);
        f_equal; eapply Hc, E.
    + f_equal. apply IH; lia.
Qed.

Lemma decodeURIComponent_fuel s fuel :
  (length s <= fuel)%nat -> URI.Decode fuel s = URI.decodeURIComponent s.
Proof. intros H. by apply Decode_fuel. Qed.

Example decode_plain :
  URI.decodeURIComponent (JsString.lit "/a/1.mp3") = Some (JsString.lit "/a/1.mp3").
Proof. reflexivity. Qed.

Example decode_space :
  URI.decodeURIComponent (JsString.lit "/a/my%20song.mp3")
  = Some (JsString.lit "/a/my song.mp3").
Proof. reflexivity. Qed.

Example decode_euro_sign :
  URI.decodeURIComponent (JsString.lit "%E2%82%AC") = Some [8364%N].
Proof. reflexivity. Qed.

Example decode_surrogate_pair :
  URI.decodeURIComponent (JsString.lit "%F0%9F%98%80")
  = Some [55357%N; 56832%N].
Proof. reflexivity. Qed.

Example decode_lone_percent :
  URI.decodeURIComponent (JsString.lit "100%") = None.
Proof. reflexivity. Qed.

Example decode_overlong :
  URI.decodeURIComponent (JsString.lit "%C0%80") = None.
Proof. reflexivity. Qed.

Example decode_surrogate_code_point :
  URI.decodeURIComponent (JsString.lit "%ED%A0%80") = None.
Proof. reflexivity. Qed.

Example decode_missing_continuation :
  URI.decodeURIComponent (JsString.lit "%E2%82x") = None.
Proof. reflexivity. Qed.

(** ** Arrays *)

(** Equalities of lists up to the bracketing of [++]. *)
Ltac list_assoc :=
  repeat first [rewrite <- app_assoc | progress simpl]; try reflexivity.

Lemma findIndex_from_none {A} (p : A -> bool) arr : forall k,
  Forall (fun x => p x = false) arr -> findIndex_from p arr k = -1.
Proof.
  induction arr as [|x arr IH]; intros k H; simpl; [done|].
  inversion H as [|? ? Hx Hr]; subst. rewrite Hx. by apply IH.
Qed.

Lemma findIndex_from_some {A} (p : A -> bool) pre x post : forall k,
  Forall (fun y => p y = false) pre -> p x = true ->
  findIndex_from p (pre ++ x :: post) k = k + Z.of_nat (length pre).
Proof.
  induction pre as [|y pre IH]; intros k H Hx; simpl.
  - rewrite Hx. lia.
  - inversion H as [|? ? Hy Hr]; subst. rewrite Hy, IH by done. lia.
Qed.

Lemma not_elem_eqb (x : nat) (arr : list nat) :
  x ∉ arr -> Forall (fun y => Nat.eqb x y = false) arr.
Proof.
  intros H. apply Forall_forall. intros y Hy.
  apply Nat.eqb_neq. intros ->. by apply H.
Qed.

Lemma splice1_middle {A} (pre : list A) x post :
  splice1 (pre ++ x :: post) (Z.of_nat (length pre)) = pre ++ post.
Proof.
  unfold splice1. rewrite Nat2Z.id, take_app_length.
  replace (S (length pre)) with (length pre + 1)%nat by lia.
  by rewrite drop_app_add.
Qed.

(** ** Disposers *)

Lemma dispose_absent x arr : x ∉ arr -> dispose x arr = arr.
Proof.
  intros H. unfold dispose, indexOf, findIndex.
  by rewrite findIndex_from_none by by apply not_elem_eqb.
Qed.

Lemma dispose_first x pre post :
  x ∉ pre -> dispose x (pre ++ x :: post) = pre ++ post.
Proof.
  intros H. unfold dispose, indexOf, findIndex.
  rewrite findIndex_from_some
    by (by apply not_elem_eqb || apply Nat.eqb_refl).
  rewrite Z.add_0_l.
  assert ((Z.of_nat (length pre) >? -1) = true) as ->
    by (apply Z.gtb_lt; lia).
  apply splice1_middle.
Qed.

Lemma count_occ_once x pre post :
  (count_occ Nat.eq_dec (pre ++ x :: post) x <= 1)%nat ->
  (x ∉ pre) /\ (x ∉ post).
Proof.
  rewrite count_occ_app, count_occ_cons_eq by done. intros H.
  split; intros Hin; apply list_elem_of_In in Hin;
    apply (count_occ_In Nat.eq_dec) in Hin; lia.
Qed.

Lemma dispose_idempotent x arr :
  (count_occ Nat.eq_dec arr x <= 1)%nat ->
  dispose x (dispose x arr) = dispose x arr.
Proof.
  intros H. destruct (decide (x ∈ arr)) as [Hin|Hout].
  - apply list_elem_of_split_l in Hin as (pre & post & -> & Hpre).
    apply count_occ_once in H as [_ Hpost].
    rewrite dispose_first by done.
    apply dispose_absent. by apply not_elem_of_app.
  - by rewrite !(dispose_absent x arr) by done.
Qed.

Lemma listeners_set ch v m : listeners ch (set_listeners ch v m) = v.
Proof. by destruct ch. Qed.

Lemma listeners_set_other ch ch' v m :
  ch <> ch' -> listeners ch (set_listeners ch' v m) = listeners ch m.
Proof. by destruct ch, ch'. Qed.

Lemma set_listeners_set ch v w m :
  set_listeners ch v (set_listeners ch w m) = set_listeners ch v m.
Proof. by destruct ch. Qed.

Lemma set_listeners_same ch m : set_listeners ch (listeners ch m) m = m.
Proof. by destruct ch, m. Qed.

(** ** Iteration over a listener array *)

Lemma same_core_refl m : same_core m m.
Proof. by repeat split. Qed.

Lemma same_core_trans m1 m2 m3 :
  same_core m1 m2 -> same_core m2 m3 -> same_core m1 m3.
Proof. unfold same_core. intros H1 H2. intuition congruence. Qed.

Lemma set_listeners_core ch v m : same_core m (set_listeners ch v m).
Proof. by repeat split. Qed.

Lemma emit_core o m : same_core m (emit o m).
Proof. by repeat split. Qed.

Lemma runAction_core m a : same_core m (runAction m a) /\
                           log (runAction m a) = log m.
Proof. destruct a; split; simpl; by try apply set_listeners_core. Qed.

Lemma runAction_keeps ch m a :
  keeps ch a ->
  listeners ch (runAction m a) = listeners ch m ++ pushed ch [a].
Proof.
  destruct a as [ch' cb|ch' cb]; simpl; intros H.
  - case_bool_decide; subst.
    + by rewrite listeners_set.
    + rewrite listeners_set_other, app_nil_r; done.
  - unfold callDisposer. simpl.
    rewrite listeners_set_other, app_nil_r; done.
Qed.

Lemma run_body_core body : forall m,
  same_core m (fold_left runAction body m) /\
  log (fold_left runAction body m) = log m.
Proof.
  induction body as [|a body IH]; intros m; simpl; [by split; [apply same_core_refl|]|].
  destruct (runAction_core m a) as [Hc Hl], (IH (runAction m a)) as [Hc' Hl'].
  split; [by eapply same_core_trans | congruence].
Qed.

Lemma run_body_keeps ch body : forall m,
  Forall (keeps ch) body ->
  listeners ch (fold_left runAction body m) = listeners ch m ++ pushed ch body.
Proof.
  induction body as [|a body IH]; intros m H; simpl; [by rewrite app_nil_r|].
  inversion H as [|? ? Ha Hb]; subst.
  rewrite IH, (runAction_keeps ch m a Ha) by done.
  unfold pushed. simpl. rewrite <- app_assoc. f_equal.
  by destruct (match a with Subscribe _ _ => _ | Unsubscribe _ _ => _ end).
Qed.

Lemma invoke_core cb o m :
  same_core m (invoke cb o m) /\ log (invoke cb o m) = o :: log m.
Proof.
  unfold invoke. destruct (run_body_core (closures m cb) (emit o m)) as [Hc Hl].
  split; [|done]. eapply same_core_trans; [apply emit_core | done].
Qed.

Lemma forEach_from_core ch call n : forall k m,
  same_core m (forEach_from ch call n k m).
Proof.
  induction n as [|n IH]; intros k m; simpl; [apply same_core_refl|].
  eapply same_core_trans; [|apply IH].
  destruct (listeners ch m !! k); [apply invoke_core | apply same_core_refl].
Qed.

(** The log only grows, by calls of the channel's callbacks. *)
Lemma forEach_from_log ch call n : forall k m,
  exists cbs, log (forEach_from ch call n k m) = (call <$> cbs) ++ log m.
Proof.
  induction n as [|n IH]; intros k m; simpl; [by exists []|].
  destruct (listeners ch m !! k) as [cb|].
  - destruct (IH (S k) (invoke cb (call cb) m)) as [cbs ->].
    exists (cbs ++ [cb]).
    rewrite (proj2 (invoke_core cb (call cb) m)), fmap_app, <- app_assoc.
    done.
  - apply IH.
Qed.

Lemma forEach_from_beyond ch call n : forall k m,
  (length (listeners ch m) <= k)%nat -> forEach_from ch call n k m = m.
Proof.
  induction n as [|n IH]; intros k m H; simpl; [done|].
  rewrite (lookup_ge_None_2 _ _ H). apply IH. lia.
Qed.

Lemma forEach_from_add ch call a : forall b k m,
  forEach_from ch call (a + b) k m =
  forEach_from ch call b (k + a) (forEach_from ch call a k m).
Proof.
  induction a as [|a IH]; intros b k m; simpl.
  - by rewrite Nat.add_0_r.
  - rewrite IH. f_equal. lia.
Qed.

(** Passes over a segment whose callbacks never remove from the array: each
    callback of the segment is called once, in order, and what they push is
    appended. *)
Lemma forEach_from_keeps ch call seg : forall pre post m,
  listeners ch m = pre ++ seg ++ post ->
  (forall cb, cb ∈ seg -> Forall (keeps ch) (closures m cb)) ->
  let m' := forEach_from ch call (length seg) (length pre) m in
  log m' = rev (call <$> seg) ++ log m /\
  listeners ch m' =
    listeners ch m ++ flat_map (fun cb => pushed ch (closures m cb)) seg.
Proof.
  induction seg as [|cb seg IH]; intros pre post m Hl Hk; simpl in *.
  - by rewrite app_nil_r.
  - rewrite Hl, list_lookup_middle by done. rewrite <- Hl.
    destruct (invoke_core cb (call cb) m) as [Hc Hlog].
    assert (Hcl : closures (invoke cb (call cb) m) = closures m)
      by apply Hc.
    assert (Hls : listeners ch (invoke cb (call cb) m) =
                  listeners ch m ++ pushed ch (closures m cb)).
    { unfold invoke. rewrite run_body_keeps.
      - by destruct ch.
      - apply Hk. by left. }
    specialize (IH (pre ++ [cb]) (post ++ pushed ch (closures m cb))
                   (invoke cb (call cb) m)).
    rewrite length_app in IH. simpl in IH.
    replace (length pre + 1)%nat with (S (length pre)) in IH by lia.
    destruct IH as [IH1 IH2].
    + rewrite Hls, Hl. list_assoc.
    + intros cb' Hin. rewrite Hcl. apply Hk. by right.
    + rewrite IH1, IH2, Hlog, Hls, Hcl, Hl. split; list_assoc.
Qed.

(** Passes over a segment whose callbacks do nothing to the arrays. *)
Lemma forEach_from_quiet ch call seg pre post m :
  listeners ch m = pre ++ seg ++ post ->
  (forall cb, cb ∈ seg -> closures m cb = []) ->
  let m' := forEach_from ch call (length seg) (length pre) m in
  log m' = rev (call <$> seg) ++ log m /\
  listeners ch m' = listeners ch m.
Proof.
  intros Hl Hq.
  destruct (forEach_from_keeps ch call seg pre post m Hl) as [H1 H2].
  { intros cb Hin. rewrite (Hq cb Hin). constructor. }
  split; [done|]. simpl. rewrite H2.
  assert (flat_map (fun cb => pushed ch (closures m cb)) seg = []) as ->.
  { clear -Hq. induction seg as [|cb seg IH]; simpl; [done|].
    rewrite (Hq cb) by by left. simpl. apply IH.
    intros cb' Hin. apply Hq. by right. }
  by rewrite app_nil_r.
Qed.

(** One pass on a callback whose body is to call its own disposer. *)
Lemma forEach_self_unsubscribe ch call l1 c l2 m :
  listeners ch m = l1 ++ c :: l2 -> c ∉ l1 ->
  closures m c = [Unsubscribe ch c] ->
  let m' := forEach_from ch call 1 (length l1) m in
  log m' = call c :: log m /\ listeners ch m' = l1 ++ l2 /\ same_core m m'.
Proof.
  intros Hl Hc Hb. simpl.
  rewrite Hl, list_lookup_middle by done.
  unfold invoke. rewrite Hb. simpl. unfold callDisposer. simpl.
  split; [by destruct ch|]. split.
  - rewrite listeners_set.
    replace (listeners ch (emit (call c) m)) with (listeners ch m)
      by by destruct ch.
    rewrite Hl. by apply dispose_first.
  - eapply same_core_trans; [apply emit_core | apply set_listeners_core].
Qed.

(** A whole broadcast in which one listener, registered once, unsubscribes
    itself and the others do nothing: the listener registered right after it
    is passed over. *)
Lemma forEach_skips_after_removal ch call l1 c l2 m :
  listeners ch m = l1 ++ c :: l2 -> c ∉ l1 ++ l2 ->
  closures m c = [Unsubscribe ch c] ->
  (forall cb, cb ∈ l1 ++ l2 -> closures m cb = []) ->
  log (forEach ch call m) = rev (call <$> (l1 ++ c :: tail l2)) ++ log m /\
  listeners ch (forEach ch call m) = l1 ++ l2.
Proof.
  intros Hl Hc Hb Hq. apply not_elem_of_app in Hc as [Hc1 Hc2].
  unfold forEach. rewrite Hl, length_app. simpl length.
  replace (S (length l2)) with (1 + length l2)%nat by lia.
  rewrite !forEach_from_add. simpl Nat.add.
  (* the passes over [l1] *)
  destruct (forEach_from_quiet ch call l1 [] (c :: l2) m Hl) as [Hlog1 Hls1].
  { intros cb Hin. apply Hq, elem_of_app. by left. }
  simpl in Hlog1, Hls1.
  pose proof (forEach_from_core ch call (length l1) 0 m) as Hco1.
  set (m1 := forEach_from ch call (length l1) 0 m) in *. clearbody m1.
  assert (Hcl1 : closures m1 = closures m) by apply Hco1.
  (* the pass on [c] *)
  destruct (forEach_self_unsubscribe ch call l1 c l2 m1)
    as (Hlog2 & Hls2 & Hco2); [congruence | done | congruence |].
  set (m2 := forEach_from ch call 1 (length l1) m1) in *. clearbody m2.
  assert (Hcl2 : closures m2 = closures m).
  { transitivity (closures m1); [apply Hco2 | done]. }
  (* the passes left *)
  destruct l2 as [|x l2]; cbn [tail length].
  - cbn [forEach_from]. rewrite Hlog2, Hlog1, Hls2.
    split; [|done]. rewrite fmap_app, rev_app_distr. list_assoc.
  - replace (S (length l2)) with (length l2 + 1)%nat by lia.
    rewrite forEach_from_add.
    destruct (forEach_from_quiet ch call l2 (l1 ++ [x]) [] m2) as [Hlog3 Hls3].
    { rewrite Hls2. list_assoc. by rewrite app_nil_r. }
    { intros cb Hin. rewrite Hcl2. apply Hq, elem_of_app. right. by right. }
    rewrite length_app in Hlog3, Hls3. simpl in Hlog3, Hls3.
    set (m3 := forEach_from ch call (length l2) (length l1 + 1) m2) in *.
    clearbody m3.
    rewrite forEach_from_beyond.
    + rewrite Hlog3, Hls3, Hlog2, Hlog1, Hls2. split; [|done].
      rewrite (fmap_app call l1 (c :: l2)), rev_app_distr. list_assoc.
    + rewrite Hls3, Hls2, length_app. simpl. lia.
Qed.

(** ** The claims on the listener registry *)

(** C2, as amended.  A broadcast on the state channel never throws, but it
    walks the live listener array by position for as many passes as the array
    was long at the start; no copy is taken.  When the listeners called only
    add listeners (or touch the other channel), every listener registered at
    the start is called exactly once, in registration order, and the added
    ones are appended without being called in that broadcast.  When a listener
    registered once calls its own disposer during its invocation (the others
    doing nothing), it is removed, the listener registered right after it is
    not called in that broadcast, and all the others are called once. *)
Theorem broadcast_walks_live_array (state : ManagerState) (m : AudioManager) :
  let call := fun cb => StateListenerCall cb state in
  let m' := _notifyStateListeners state m in
  ((forall cb, cb ∈ _stateChangeListeners m ->
               Forall (keeps StateChannel) (closures m cb)) ->
   log m' = rev (call <$> _stateChangeListeners m) ++ log m /\
   _stateChangeListeners m' =
     _stateChangeListeners m ++
     flat_map (fun cb => pushed StateChannel (closures m cb))
              (_stateChangeListeners m)) /\
  (forall l1 c l2,
      _stateChangeListeners m = l1 ++ c :: l2 -> c ∉ l1 ++ l2 ->
      closures m c = [Unsubscribe StateChannel c] ->
      (forall cb, cb ∈ l1 ++ l2 -> closures m cb = []) ->
      log m' = rev (call <$> (l1 ++ c :: tail l2)) ++ log m /\
      _stateChangeListeners m' = l1 ++ l2).
Proof.
  intros call m'. split.
  - intros Hk.
    apply (forEach_from_keeps StateChannel call (_stateChangeListeners m) [] [] m);
      [simpl; by rewrite app_nil_r | done].
  - intros l1 c l2 Hl Hc Hb Hq.
    by apply (forEach_skips_after_removal StateChannel call l1 c l2 m).
Qed.

(** C8, as amended.  The disposer returned by [addStateListener] or
    [addTimeListener] for a callback removes the earliest registration of
    that callback from its channel and nothing else, and leaves everything
    alone when the callback is not registered (in particular when the array
    is empty).  It is idempotent as long as the callback is registered at
    most once on the channel when it is first called. *)
Theorem disposer_removes_earliest_registration
        (ch : Channel) (callback : nat) (m0 m : AudioManager) :
  let d := (addListener ch callback m0).2 in
  (forall pre post,
      listeners ch m = pre ++ callback :: post -> callback ∉ pre ->
      listeners ch (callDisposer d m) = pre ++ post) /\
  (forall ch', ch' <> ch ->
      listeners ch' (callDisposer d m) = listeners ch' m) /\
  (callback ∉ listeners ch m -> callDisposer d m = m) /\
  ((count_occ Nat.eq_dec (listeners ch m) callback <= 1)%nat ->
   callDisposer d (callDisposer d m) = callDisposer d m).
Proof.
  simpl. unfold callDisposer. simpl. repeat split.
  - intros pre post Hl Hpre. rewrite listeners_set, Hl. by apply dispose_first.
  - intros ch' Hne. by apply listeners_set_other.
  - intros Hout. rewrite dispose_absent by done. apply set_listeners_same.
  - intros Hc. by rewrite listeners_set, set_listeners_set, dispose_idempotent.
Qed.

(** ** State broadcasts *)

Lemma notifyStateChange_core m : same_core m (notifyStateChange m).
Proof.
  unfold notifyStateChange, _notifyStateListeners, forEach.
  eapply same_core_trans; [apply emit_core | apply forEach_from_core].
Qed.

(** What a state broadcast adds to the log: the snapshot of the current
    state, once for the legacy callback and once per listener called. *)
Lemma notifyStateChange_log m :
  exists new,
    log (notifyStateChange m) = new ++ log m /\
    Forall (fun o => stateOf o = Some (getState m)) new.
Proof.
  unfold notifyStateChange, _notifyStateListeners, forEach.
  set (st := getState m).
  destruct (forEach_from_log StateChannel (fun cb => StateListenerCall cb st)
              (length (listeners StateChannel (emit (OnStateChange st) m))) 0
              (emit (OnStateChange st) m)) as [cbs ->].
  exists (((fun cb => StateListenerCall cb st) <$> cbs) ++ [OnStateChange st]).
  split; [simpl; list_assoc|].
  apply Forall_app. split; [|by repeat constructor].
  apply Forall_fmap, Forall_forall. by intros cb _.
Qed.

Lemma notifyStateChange_only_notifies : only_notifies notifyStateChange.
Proof.
  intros m. split; [apply notifyStateChange_core|].
  destruct (notifyStateChange_log m) as (new & Hlog & Hnew).
  exists new. split; [done|].
  eapply Forall_impl; [exact Hnew|]. intros [] H; simpl in *; congruence.
Qed.

Lemma notifyStateChange_keeps_active : keeps_active notifyStateChange.
Proof.
  intros m. split; [apply notifyStateChange_core|].
  destruct (notifyStateChange_log m) as (new & Hlog & Hnew).
  exists new. split; [done|].
  eapply Forall_impl; [exact Hnew|]. simpl. intros o Ho s Hs.
  rewrite Ho in Hs. by inversion Hs.
Qed.

Lemma keeps_active_compose f g :
  keeps_active f -> keeps_active g -> keeps_active (fun m => g (f m)).
Proof.
  intros Hf Hg m.
  destruct (Hf m) as (Ha & new & Hlog & Hnew).
  destruct (Hg (f m)) as (Ha' & new' & Hlog' & Hnew').
  split; [congruence|].
  exists (new' ++ new). split; [rewrite Hlog', Hlog; list_assoc|].
  apply Forall_app. split; [|done].
  eapply Forall_impl; [exact Hnew'|]. simpl. intros o Ho s Hs.
  rewrite <- Ha. by apply Ho.
Qed.

(** A step that only rewrites fields other than the active name and logs
    something that is not a state broadcast. *)
Lemma keeps_active_silent f :
  (forall m, activePlayerName (f m) = activePlayerName m) ->
  (forall m, log (f m) = log m \/
             exists o, stateOf o = None /\ log (f m) = o :: log m) ->
  keeps_active f.
Proof.
  intros Ha Hl m. split; [apply Ha|].
  destruct (Hl m) as [H|(o & Ho & H)].
  - exists []. split; [done | constructor].
  - exists [o]. split; [done|]. repeat constructor. intros s Hs. congruence.
Qed.

(** Discharges [keeps_active] for such a step. *)
Ltac silent_step :=
  apply keeps_active_silent; intros ?m; simpl;
  first [ reflexivity
        | left; reflexivity
        | right; eexists; split; [|reflexivity]; reflexivity ].

Lemma keeps_active_id : keeps_active (fun m => m).
Proof. silent_step. Qed.

Lemma loadTrack_keeps_active index : keeps_active (loadTrack index).
Proof.
  intros m. unfold loadTrack.
  destruct (_ || _); [apply keeps_active_id|].
  destruct (at_index _ _) as [track|]; [|apply keeps_active_id].
  refine (keeps_active_compose
            (fun m => set_audio
                        {| a_src := src track;
                           a_currentTime := a_currentTime (audio m);
                           a_duration := a_duration (audio m) |}
                        (set_currentIndex index m))
            notifyStateChange _ _ m);
    [silent_step | apply notifyStateChange_keeps_active].
Qed.

Lemma play_keeps_active : keeps_active play.
Proof.
  intros m. unfold play.
  destruct (bool_decide _); [apply keeps_active_id|].
  destruct (videoManager m); (split; [done|]).
  - exists [AudioPlay; VideoPauseAll]. split; [done|].
    repeat constructor; intros s Hs; discriminate.
  - exists [AudioPlay]. split; [done|].
    repeat constructor; intros s Hs; discriminate.
Qed.

Lemma pause_keeps_active : keeps_active pause.
Proof. silent_step. Qed.

Lemma next_keeps_active : keeps_active next.
Proof.
  intros m. unfold next. destruct (_ <? _).
  - refine (keeps_active_compose (loadTrack (currentIndex m + 1)) play _ _ m);
      [apply loadTrack_keeps_active | apply play_keeps_active].
  - refine (keeps_active_compose (loadTrack 0) pause _ _ m);
      [apply loadTrack_keeps_active | apply pause_keeps_active].
Qed.

Lemma forEach_keeps_active ch call :
  (forall cb, stateOf (call cb) = None) -> keeps_active (forEach ch call).
Proof.
  intros Hcall m. unfold forEach. split; [apply forEach_from_core|].
  destruct (forEach_from_log ch call (length (listeners ch m)) 0 m)
    as [cbs ->].
  exists (call <$> cbs). split; [done|].
  apply Forall_fmap, Forall_forall. intros cb _ s Hs. simpl in Hs.
  rewrite Hcall in Hs. discriminate.
Qed.

Lemma dispatch_keeps_active e : keeps_active (fun m => dispatch m e).
Proof.
  destruct e; simpl.
  - apply (keeps_active_compose
             (fun m => emit (OnTimeUpdate
                               {| ti_currentTime := t;
                                  ti_duration := durationOrZero (audio m) |})
                         (set_audio {| a_src := a_src (audio m);
                                       a_currentTime := t;
                                       a_duration := a_duration (audio m) |} m))
             (fun m => _notifyTimeListeners (timeInfo m) m)).
    + silent_step.
    + intros m.
      refine (forEach_keeps_active TimeChannel
                (fun cb => TimeListenerCall cb (timeInfo m)) _ m).
      done.
  - apply next_keeps_active.
  - apply (keeps_active_compose (set_isPlaying true) notifyStateChange);
      [silent_step | apply notifyStateChange_keeps_active].
  - apply (keeps_active_compose (set_isPlaying false) notifyStateChange);
      [silent_step | apply notifyStateChange_keeps_active].
  - apply (keeps_active_compose
             (fun m => set_isPlaying false (emit ConsoleError m))
             notifyStateChange);
      [silent_step
      | apply notifyStateChange_keeps_active].
  - apply (keeps_active_compose
             (fun m => notifyStateChange
                         (set_audio {| a_src := a_src (audio m);
                                       a_currentTime := a_currentTime (audio m);
                                       a_duration := Some d |} m))
             (fun m => emit (OnTimeUpdate (timeInfo m)) m)).
    + apply (keeps_active_compose
               (fun m => set_audio {| a_src := a_src (audio m);
                                      a_currentTime := a_currentTime (audio m);
                                      a_duration := Some d |} m)
               notifyStateChange);
        [silent_step | apply notifyStateChange_keeps_active].
    + silent_step.
  - apply (keeps_active_compose
             (fun m => set_isPlaying false (emit ConsoleError m))
             notifyStateChange);
      [silent_step
      | apply notifyStateChange_keeps_active].
Qed.

(** Any run of events of the media element keeps the active name, and all
    the state broadcasts made on the way report it. *)
Lemma events_keep_active events :
  keeps_active (fun m => fold_left dispatch events m).
Proof.
  induction events as [|e events IH]; simpl; [apply keeps_active_id|].
  apply (keeps_active_compose (fun m => dispatch m e)
                              (fun m => fold_left dispatch events m));
    [apply dispatch_keeps_active | apply IH].
Qed.

(** ** Loading a track *)

Lemma at_index_Some {A} (arr : list A) i x :
  at_index arr i = Some x ->
  0 <= i < Z.of_nat (length arr) /\ arr !! Z.to_nat i = Some x.
Proof.
  unfold at_index. destruct (i <? 0) eqn:E; [done|].
  intros H. apply Z.ltb_ge in E. split; [|done].
  apply lookup_lt_Some in H. lia.
Qed.

Lemma at_index_in_range {A} (arr : list A) i :
  0 <= i < Z.of_nat (length arr) -> exists x, at_index arr i = Some x.
Proof.
  intros [H0 H1]. unfold at_index.
  rewrite (proj2 (Z.ltb_ge _ _) H0).
  apply lookup_lt_is_Some_2. lia.
Qed.

Lemma loadTrack_in_range index m track :
  at_index (currentPlaylist m) index = Some track ->
  loadTrack index m =
  notifyStateChange
    (set_audio {| a_src := src track;
                  a_currentTime := a_currentTime (audio m);
                  a_duration := a_duration (audio m) |}
               (set_currentIndex index m)).
Proof.
  intros H. unfold loadTrack. rewrite H.
  apply at_index_Some in H as [[H0 H1] _].
  rewrite (proj2 (Z.ltb_ge _ _) H0).
  assert ((index >=? Z.of_nat (length (currentPlaylist m))) = false) as ->;
    [|done].
  destruct (index >=? _) eqn:E; [|done]. apply Z.geb_le in E. lia.
Qed.

(** What [loadTrack] leaves behind for an index that has a track. *)
Lemma loadTrack_fields index m track :
  at_index (currentPlaylist m) index = Some track ->
  let m' := loadTrack index m in
  currentIndex m' = index /\
  a_src (audio m') = src track /\
  a_currentTime (audio m') = a_currentTime (audio m) /\
  isPlaying m' = isPlaying m /\
  currentPlaylist m' = currentPlaylist m /\
  activePlayerName m' = activePlayerName m /\
  players m' = players m /\
  _pendingReconnect m' = _pendingReconnect m /\
  exists new, log m' = new ++ log m /\
              Forall (fun o => isAudioRequest o = false) new.
Proof.
  intros H. simpl. rewrite (loadTrack_in_range _ _ _ H).
  match goal with
  | |- context [notifyStateChange ?x] =>
      destruct (notifyStateChange_only_notifies x)
        as ((-> & -> & -> & -> & -> & -> & -> & _) & Hlog)
  end.
  by repeat split.
Qed.

Lemma play_core m : same_core m (play m).
Proof.
  unfold play. destruct (bool_decide _); [apply same_core_refl|].
  destruct (videoManager m); by repeat split.
Qed.

(** ** The claims on the playback state machine *)

(** C1.  With [A] and [B] registered and [A] active, [playPlaylist(B, i)] for
    an index [i] of [B]'s track list makes [B] the active playlist, with
    [currentIndex = i] and [B]'s tracks as the current playlist.  The manager
    has a single active name, so [A] is no longer active; and every state
    broadcast made by the call or by any later run of events of the media
    element reports [B] as the playlist, hence none reports [A] when [A] is
    another playlist. *)
Theorem playPlaylist_replaces_selection
        (A B : string) (pA pB : Player) (i : Z) (m : AudioManager) :
  players m !! A = Some pA ->
  players m !! B = Some pB ->
  activePlayerName m = Some A ->
  0 <= i < Z.of_nat (length (p_playlist pB)) ->
  let m' := playPlaylist B i m in
  activePlayerName m' = Some B /\
  currentIndex m' = i /\
  currentPlaylist m' = p_playlist pB /\
  forall events,
    let m'' := fold_left dispatch events m' in
    activePlayerName m'' = Some B /\
    exists new,
      log m'' = new ++ log m /\
      broadcasts (fun s => st_playlistName s = Some B /\
                           (A <> B -> st_playlistName s <> Some A)) new.
Proof.
  intros _ HB _ Hi. simpl. unfold playPlaylist. rewrite HB.
  set (m0 := set_currentPlaylist (p_playlist pB)
               (set_activePlayerName (Some B) m)).
  destruct (at_index_in_range (currentPlaylist m0) i Hi) as [t Ht].
  destruct (loadTrack_fields i m0 t Ht)
    as (Hidx & _ & _ & _ & Hpl & Hact & _).
  destruct (play_core (loadTrack i m0))
    as (_ & Hact' & _ & Hpl' & Hidx' & _).
  assert (Ha0 : activePlayerName m0 = Some B) by reflexivity.
  assert (Hp0 : currentPlaylist m0 = p_playlist pB) by reflexivity.
  split; [congruence|]. split; [congruence|]. split; [congruence|].
  intros events.
  pose proof (keeps_active_compose _ _
                (keeps_active_compose _ _ (loadTrack_keeps_active i)
                                      play_keeps_active)
                (events_keep_active events) m0) as (Ha & new & Hlog & Hnew).
  simpl in Ha, Hlog, Hnew. split; [done|].
  exists new. split; [done|].
  eapply Forall_impl; [exact Hnew|]. simpl. intros o Ho s Hs.
  specialize (Ho s Hs). split; [done|]. intros Hne. rewrite Ho. congruence.
Qed.


(** ** The lookup of a name in the registry object *)

Lemma lookupPlayer_own m name player :
  players m !! name = Some player -> lookupPlayer m name = OwnPlayer player.
Proof. unfold lookupPlayer. by intros ->. Qed.

Lemma lookupPlayer_undefined m name :
  players m !! name = None -> name ∉ objectPrototypeKeys ->
  lookupPlayer m name = Undefined.
Proof.
  unfold lookupPlayer. intros -> H. by rewrite bool_decide_eq_false_2.
Qed.


(** Where the lookup finds a player or nothing, the call returns what
    [tryReconnect] gives. *)
Lemma tryReconnect_call_returns name m :
  lookupPlayer m name <> InheritedMember ->
  tryReconnect_call name m = Returns (tryReconnect name m).
Proof.
  unfold tryReconnect_call, tryReconnect, lookupPlayer. intros H.
  destruct (_pendingReconnect m) as [pending|]; [|done].
  destruct (negb _); [done|].
  destruct (players m !! name) as [player|].
  - by destruct (_ >=? 0).
  - by destruct (bool_decide _).
Qed.

(** ** The claims on the reconnect protocol *)

Lemma register_fields name playlist options m :
  let m' := register name playlist options m in
  _pendingReconnect m' = _pendingReconnect m /\
  (exists p, players m' !! name = Some p /\ p_playlist p = playlist) /\
  activePlayerName m' = activePlayerName m /\
  isPlaying m' = isPlaying m /\ audio m' = audio m.
Proof.
  simpl. unfold register. simpl. repeat split.
  eexists. split; [apply lookup_insert_eq | done].
Qed.

(** C3.  [tryReconnect(name)] returns [false] and changes nothing when there
    is no pending record or when the record's playlist name is not [name].
    When the name is the recorded one and the playlist registered under it
    has no track whose [src] occurs in the recorded source, it returns
    [false] and discards the record; from then on [tryReconnect(name)] fails,
    also after the playlist is registered again. *)
Theorem tryReconnect_failures (name : string) (m : AudioManager) :
  (_pendingReconnect m = None -> tryReconnect name m = (false, m)) /\
  (forall pending,
      _pendingReconnect m = Some pending ->
      pr_playerName pending <> Some name ->
      tryReconnect name m = (false, m)) /\
  (forall pending player,
      _pendingReconnect m = Some pending ->
      pr_playerName pending = Some name ->
      players m !! name = Some player ->
      Forall (fun t => JsString.includes (pr_src pending) (src t) = false)
             (p_playlist player) ->
      let m' := set_pendingReconnect None m in
      tryReconnect name m = (false, m') /\
      tryReconnect name m' = (false, m') /\
      forall playlist options,
        (tryReconnect name (register name playlist options m')).1 = false).
Proof.
  split; [|split].
  - unfold tryReconnect. by intros ->.
  - unfold tryReconnect. intros pending -> Hne.
    by rewrite bool_decide_eq_false_2.
  - intros pending player Hp Hn Hreg Hnone. cbv zeta. split; [|split].
    + unfold tryReconnect, findIndex. rewrite Hp, Hreg.
      rewrite bool_decide_eq_true_2 by done. simpl.
      by rewrite findIndex_from_none.
    + done.
    + intros playlist options. unfold tryReconnect.
      by destruct (register_fields name playlist options
                     (set_pendingReconnect None m)) as (-> & _).
Qed.


(** ** The claims on the playlist registry *)

Lemma destroyPlayer_core m player :
  same_core m (destroyPlayer m player) /\
  log (destroyPlayer m player) = log m.
Proof.
  unfold destroyPlayer, destroy.
  destruct (opt_player (p_options player)) as [w|];
    [|by split; [apply same_core_refl|]].
  by destruct (_unsubscribeState w), (_unsubscribeTime w).
Qed.

Lemma destroy_all_core l : forall m,
  same_core m (fold_left destroyPlayer l m) /\
  log (fold_left destroyPlayer l m) = log m.
Proof.
  induction l as [|p l IH]; intros m; simpl; [by split; [apply same_core_refl|]|].
  destruct (destroyPlayer_core m p) as [Hc Hl], (IH (destroyPlayer m p)) as [Hc' Hl'].
  split; [by eapply same_core_trans | congruence].
Qed.

(** C7.  [clearPlayers()] empties the registry and asks nothing of the media
    element: [isPlaying], the element's source and position (the whole
    element record) are as before, as are the active name, the current
    playlist and the current index, and the only output is the playlist
    notification (of an empty list).  The pending record holds the active
    name, the element's source and position and [isPlaying], all as they
    were before the call. *)
Theorem clearPlayers_keeps_resource (m : AudioManager) :
  let m' := clearPlayers m in
  players m' = ∅ /\
  isPlaying m' = isPlaying m /\
  audio m' = audio m /\
  activePlayerName m' = activePlayerName m /\
  currentPlaylist m' = currentPlaylist m /\
  currentIndex m' = currentIndex m /\
  log m' = OnPlaylistChange [] :: log m /\
  _pendingReconnect m' =
    Some {| pr_playerName := activePlayerName m;
            pr_src := a_src (audio m);
            pr_time := a_currentTime (audio m);
            pr_playing := isPlaying m |}.
Proof.
  simpl. unfold clearPlayers.
  destruct (destroy_all_core ((map_to_list (players m)).*2) m)
    as ((_ & Hact & Haud & Hpl & Hidx & Hplay & _) & Hlog).
  simpl. unfold getPlaylists. simpl. rewrite map_to_list_empty. simpl.
  rewrite Hlog. by repeat split.
Qed.

(** C10.  After [unregister(name)] of the active playlist the current track
    list is empty and [getCurrentTrack()] returns [null]; no playlist is
    active and [name] is no longer registered, while the media element keeps
    its source (it is only asked to pause). *)
Theorem unregister_active_clears_track (name : string) (m : AudioManager) :
  activePlayerName m = Some name ->
  let m' := unregister name m in
  currentPlaylist m' = [] /\
  getCurrentTrack m' = TrackNull /\
  activePlayerName m' = None /\
  players m' !! name = None /\
  audio m' = audio m /\
  exists l, log m' = OnPlaylistChange l :: AudioPause :: log m.
Proof.
  intros Ha. simpl. unfold unregister.
  rewrite bool_decide_eq_true_2 by done. simpl.
  repeat split; [apply lookup_delete_eq | by eexists].
Qed.

Lemma getWaveform_register name playlist options m name' i :
  getWaveform name' i (register name playlist options m) = getWaveform name' i m.
Proof.
  unfold getWaveform, register. simpl.
  destruct (decide (name = name')) as [->|Hne].
  - rewrite lookup_insert_eq. simpl. by destruct (players m !! name').
  - by rewrite lookup_insert_ne.
Qed.

Lemma getWaveform_setWaveform name j data m p i :
  players m !! name = Some p ->
  getWaveform name i (setWaveform name j data m) =
  if decide (j = i) then Some data else getWaveform name i m.
Proof.
  intros Hp. unfold getWaveform, setWaveform. rewrite Hp. simpl.
  rewrite lookup_insert_eq. simpl. rewrite lookup_insert.
  by destruct (decide (j = i)).
Qed.

Lemma setWaveform_registered name j data m p :
  players m !! name = Some p ->
  exists p', players (setWaveform name j data m) !! name = Some p'.
Proof.
  intros Hp. unfold setWaveform. rewrite Hp. simpl.
  eexists. apply lookup_insert_eq.
Qed.

Lemma setWaveforms_registered name writes : forall m p,
  players m !! name = Some p ->
  exists p',
    players (fold_left (fun m (w : Z * WaveformData) =>
                          setWaveform name w.1 w.2 m) writes m) !! name
    = Some p'.
Proof.
  induction writes as [|[j d] writes IH]; intros m p Hp; simpl; [by eexists|].
  destruct (setWaveform_registered name j d m p Hp) as [p' Hp'].
  by eapply IH.
Qed.

Lemma setWaveforms_other name writes i : forall m p,
  players m !! name = Some p ->
  i ∉ writes.*1 ->
  getWaveform name i (fold_left (fun m (w : Z * WaveformData) =>
                                   setWaveform name w.1 w.2 m) writes m)
  = getWaveform name i m.
Proof.
  induction writes as [|[j d] writes IH]; intros m p Hp Hi; simpl; [done|].
  simpl in Hi. apply not_elem_of_cons in Hi as [Hne Hi].
  destruct (setWaveform_registered name j d m p Hp) as [p' Hp'].
  rewrite (IH _ p' Hp' Hi), (getWaveform_setWaveform _ _ _ _ p) by done.
  by rewrite decide_False.
Qed.

(** C6.  Register [A], store any waveforms for [A] with [setWaveform],
    register a playlist [B], register [A] again with any track list: every
    read [getWaveform(A, i)] gives what it gave before the two last
    registrations, and in particular the last data stored under an index is
    what is read there. *)
Theorem register_preserves_waveforms
        (A B : string) (tracksA tracksB tracksA' : list Track)
        (optionsA optionsB optionsA' : Options)
        (writes : list (Z * WaveformData)) (m : AudioManager) :
  let m1 := fold_left (fun m (w : Z * WaveformData) =>
                         setWaveform A w.1 w.2 m)
                      writes (register A tracksA optionsA m) in
  let m3 := register A tracksA' optionsA' (register B tracksB optionsB m1) in
  (forall i, getWaveform A i m3 = getWaveform A i m1) /\
  (forall pre i data post,
      writes = pre ++ (i, data) :: post -> i ∉ post.*1 ->
      getWaveform A i m3 = Some data).
Proof.
  simpl. split.
  - intros i. by rewrite !getWaveform_register.
  - intros pre i data post -> Hi.
    rewrite !getWaveform_register, fold_left_app. simpl.
    destruct (register_fields A tracksA optionsA m)
      as (_ & (p & Hp & _) & _).
    destruct (setWaveforms_registered A pre _ p Hp) as [p1 Hp1].
    destruct (setWaveform_registered A i data _ p1 Hp1) as [p2 Hp2].
    rewrite (setWaveforms_other A post i _ p2 Hp2 Hi).
    rewrite (getWaveform_setWaveform _ _ _ _ p1) by done.
    by rewrite decide_True.
Qed.

(** ** The claim on the index translator *)


Lemma findDecodedIndex_from_found wanted pre t post : forall k,
  Forall (decodesApartFrom wanted) pre -> decodesTo wanted t ->
  findDecodedIndex_from wanted (pre ++ t :: post) k =
  Returns (k + Z.of_nat (length pre)).
Proof.
  induction pre as [|t' pre IH]; intros k H Ht;
    cbn [findDecodedIndex_from app length].
  - rewrite Ht. unfold JsString.eqb. rewrite bool_decide_eq_true_2 by done.
    f_equal. lia.
  - apply Forall_cons in H as [(d' & Hd & Hne) Hr]. rewrite Hd.
    unfold JsString.eqb. rewrite bool_decide_eq_false_2 by done.
    rewrite IH by done. f_equal. lia.
Qed.



(** * The claims at sample states *)

Import Sample.

(** C1 at a sample state: B replaces A, which was playing. *)
Lemma playPlaylist_replaces_selection_witness :
  activePlayerName (playPlaylist "B" 1 playingA) = Some "B"%string /\
  currentIndex (playPlaylist "B" 1 playingA) = 1.
Proof.
  destruct (playPlaylist_replaces_selection
              "A" "B" (playerOf "A" [t1; t2]) (playerOf "B" [t3; t4])
              1 playingA)
    as (Ha & Hi & _).
  - reflexivity.
  - reflexivity.
  - reflexivity.
  - simpl. lia.
  - split; assumption.
Defined.

(** C2, as stated, fails: while callback 2 unsubscribes itself, callback 3,
    registered when the broadcast began, is not called. *)
Lemma broadcast_skips_listener_counterexample :
  let state := getState withLeaver in
  let m' := _notifyStateListeners state withLeaver in
  3%nat ∈ _stateChangeListeners withLeaver /\
  log m' = [StateListenerCall 4 state; StateListenerCall 2 state;
            StateListenerCall 1 state] /\
  ~ (forall cb, cb ∈ _stateChangeListeners withLeaver ->
                StateListenerCall cb state ∈ log m').
Proof.
  assert (H3 : 3%nat ∈ _stateChangeListeners withLeaver).
  { apply list_elem_of_In. simpl. tauto. }
  split; [exact H3|]. split; [reflexivity|].
  intros H. specialize (H 3%nat H3).
  apply list_elem_of_In in H. vm_compute in H.
  repeat (destruct H as [H|H]; [discriminate H|]). exact H.
Qed.

(** C2 (amended) at sample states: an added listener, a leaving listener. *)
Lemma broadcast_walks_live_array_witness :
  (let state := getState withAdder in
   _stateChangeListeners (_notifyStateListeners state withAdder)
   = [1; 2; 3; 4; 9]%nat) /\
  (let state := getState withLeaver in
   _stateChangeListeners (_notifyStateListeners state withLeaver)
   = [1; 3; 4]%nat).
Proof.
  split.
  - destruct (broadcast_walks_live_array (getState withAdder) withAdder)
      as [HA _].
    destruct HA as [_ HA].
    + intros cb Hin. apply list_elem_of_In in Hin. simpl in Hin.
      destruct Hin as [<-|[<-|[<-|[<-|[]]]]]; repeat constructor.
    + exact HA.
  - destruct (broadcast_walks_live_array (getState withLeaver) withLeaver)
      as [_ HB].
    destruct (HB [1%nat] 2%nat [3; 4]%nat) as [_ HB'].
    + reflexivity.
    + intros Hin. apply list_elem_of_In in Hin. simpl in Hin.
      destruct Hin as [Hin|[Hin|[Hin|[]]]]; discriminate Hin.
    + reflexivity.
    + intros cb Hin. apply list_elem_of_In in Hin. simpl in Hin.
      destruct Hin as [<-|[<-|[<-|[]]]]; reflexivity.
    + exact HB'.
Defined.

(** C3 at sample states. *)
Lemma tryReconnect_failures_witness :
  tryReconnect "A" registered = (false, registered) /\
  tryReconnect "B" remounted = (false, remounted) /\
  tryReconnect "A" remounted = (false, set_pendingReconnect None remounted).
Proof.
  split; [|split].
  - destruct (tryReconnect_failures "A" registered) as (H & _).
    apply H. reflexivity.
  - destruct (tryReconnect_failures "B" remounted) as (_ & H & _).
    apply (H {| pr_playerName := Some "A"%string;
                pr_src := JsString.lit "/a/1.mp3";
                pr_time := 0%Q; pr_playing := true |}).
    + reflexivity.
    + discriminate.
  - destruct (tryReconnect_failures "A" remounted) as (_ & _ & H).
    destruct (H {| pr_playerName := Some "A"%string;
                   pr_src := JsString.lit "/a/1.mp3";
                   pr_time := 0%Q; pr_playing := true |}
                (playerOf "A" [t3; t4])) as (H' & _).
    + reflexivity.
    + reflexivity.
    + reflexivity.
    + repeat constructor.
    + exact H'.
Defined.





(** C6 at a sample state: two waveforms stored for A, one overwritten. *)
Lemma register_preserves_waveforms_witness :
  let writes := [(0, [1 # 2]%Q); (1, []); (0, [1 # 4]%Q)] in
  let m1 := fold_left (fun m (w : Z * WaveformData) =>
                         setWaveform "A" w.1 w.2 m)
                      writes (register "A" [t1; t2] noOptions
                                       (new_AudioManager false quiet)) in
  let m3 := register "A" [t2] noOptions (register "B" [t3] noOptions m1) in
  getWaveform "A" 0 m3 = Some [1 # 4]%Q /\ getWaveform "A" 1 m3 = Some [].
Proof.
  destruct (register_preserves_waveforms
              "A" "B" [t1; t2] [t3] [t2] noOptions noOptions noOptions
              [(0, [1 # 2]%Q); (1, []); (0, [1 # 4]%Q)]
              (new_AudioManager false quiet)) as (_ & H).
  split.
  - apply (H [(0, [1 # 2]%Q); (1, [])] 0 [1 # 4]%Q []); [reflexivity|].
    apply not_elem_of_nil.
  - apply (H [(0, [1 # 2]%Q)] 1 [] [(0, [1 # 4]%Q)]); [reflexivity|].
    intros Hin. apply list_elem_of_In in Hin. simpl in Hin.
    destruct Hin as [Hin|[]]. discriminate Hin.
Defined.

(** C8, as stated, fails: with the same callback registered twice, calling
    its disposer twice removes both registrations, calling it once only
    one. *)
Lemma disposer_twice_counterexample :
  let d := (addStateListener 7 (new_AudioManager false quiet)).2 in
  _stateChangeListeners registeredTwice = [7; 7]%nat /\
  _stateChangeListeners (callDisposer d registeredTwice) = [7%nat] /\
  _stateChangeListeners (callDisposer d (callDisposer d registeredTwice)) = [] /\
  callDisposer d (callDisposer d registeredTwice)
    <> callDisposer d registeredTwice.
Proof.
  repeat split. intros H.
  apply (f_equal _stateChangeListeners) in H. discriminate H.
Qed.

(** C8 (amended) at a sample state: the disposer of callback 2 among four
    listeners. *)
Lemma disposer_removes_earliest_registration_witness :
  let d := (addStateListener 2 (new_AudioManager false quiet)).2 in
  let m := subscribeAll [1; 2; 3; 4]%nat (new_AudioManager false quiet) in
  _stateChangeListeners (callDisposer d m) = [1; 3; 4]%nat /\
  _timeUpdateListeners (callDisposer d m) = [] /\
  callDisposer d (new_AudioManager false quiet) = new_AudioManager false quiet /\
  callDisposer d (callDisposer d m) = callDisposer d m.
Proof.
  pose (m := subscribeAll [1; 2; 3; 4]%nat (new_AudioManager false quiet)).
  destruct (disposer_removes_earliest_registration
              StateChannel 2 (new_AudioManager false quiet) m)
    as (Hfirst & Hother & _ & Hidem).
  destruct (disposer_removes_earliest_registration
              StateChannel 2 (new_AudioManager false quiet)
              (new_AudioManager false quiet))
    as (_ & _ & Habsent & _).
  split; [|split; [|split]].
  - apply (Hfirst [1%nat] [3; 4]%nat); [reflexivity|].
    intros Hin. apply list_elem_of_In in Hin. simpl in Hin.
    destruct Hin as [Hin|[]]. discriminate Hin.
  - apply (Hother TimeChannel). discriminate.
  - apply Habsent. apply not_elem_of_nil.
  - apply Hidem. simpl. lia.
Defined.



(** C10 at a sample state: A is unregistered while it plays. *)
Lemma unregister_active_clears_track_witness :
  getCurrentTrack (unregister "A" playingA) = TrackNull /\
  a_src (audio (unregister "A" playingA)) = JsString.lit "/a/1.mp3".
Proof.
  destruct (unregister_active_clears_track "A" playingA)
    as (_ & Hnull & _ & _ & Haudio & _).
  - reflexivity.
  - split; [exact Hnull|]. rewrite Haudio. reflexivity.
Defined.

(** * Further properties *)

(** ** Field effects of the basic operations *)

(** Names the equalities of a [same_core] hypothesis. *)
Ltac core_fields H :=
  destruct H as (?Hplayers & ?Hactive & ?Haudio & ?Hplaylist & ?Hindex
                 & ?Hplaying & ?Hpending & ?Hvideo & ?Hclosures).

Lemma loadTrack_cases index m :
  loadTrack index m = m \/
  exists track,
    at_index (currentPlaylist m) index = Some track /\
    loadTrack index m =
    notifyStateChange
      (set_audio {| a_src := src track;
                    a_currentTime := a_currentTime (audio m);
                    a_duration := a_duration (audio m) |}
                 (set_currentIndex index m)).
Proof.
  destruct (at_index (currentPlaylist m) index) as [track|] eqn:E.
  - right. exists track. split; [done|]. by apply loadTrack_in_range.
  - left. unfold loadTrack. rewrite E. by destruct (_ || _).
Qed.

Lemma loadTrack_out_of_range index m :
  ~ (0 <= index < Z.of_nat (length (currentPlaylist m))) ->
  loadTrack index m = m.
Proof.
  intros H. destruct (loadTrack_cases index m) as [E|(t & Ht & _)]; [done|].
  apply at_index_Some in Ht as [Ht _]. contradiction.
Qed.

(** Whatever the index, [loadTrack] leaves these alone. *)
Lemma loadTrack_keeps index m :
  let m' := loadTrack index m in
  players m' = players m /\
  activePlayerName m' = activePlayerName m /\
  currentPlaylist m' = currentPlaylist m /\
  isPlaying m' = isPlaying m /\
  _pendingReconnect m' = _pendingReconnect m /\
  videoManager m' = videoManager m /\
  closures m' = closures m /\
  a_currentTime (audio m') = a_currentTime (audio m) /\
  a_duration (audio m') = a_duration (audio m) /\
  (0 <= currentIndex m -> 0 <= currentIndex m').
Proof.
  simpl. destruct (loadTrack_cases index m) as [->|(t & Ht & ->)]; [done|].
  match goal with
  | |- context [notifyStateChange ?x] =>
      pose proof (notifyStateChange_core x) as Hc
  end.
  core_fields Hc. simpl in *.
  rewrite Hplayers, Hactive, Haudio, Hplaylist, Hindex, Hplaying, Hpending,
    Hvideo, Hclosures.
  apply at_index_Some in Ht as [[Ht _] _]. by repeat split.
Qed.

Lemma loadTrack_log index m :
  exists new, log (loadTrack index m) = new ++ log m /\
              Forall (fun o => isAudioRequest o = false) new.
Proof.
  destruct (loadTrack_cases index m) as [->|(t & _ & ->)].
  - by exists [].
  - match goal with
    | |- context [notifyStateChange ?x] =>
        destruct (notifyStateChange_only_notifies x) as (_ & new & Hl & Hn)
    end.
    by exists new.
Qed.

Lemma play_log m :
  log (play m) =
  (if bool_decide (length (currentPlaylist m) = 0%nat) then []
   else if videoManager m then [AudioPlay; VideoPauseAll] else [AudioPlay])
  ++ log m.
Proof.
  unfold play. destruct (bool_decide _); [done|]. by destruct (videoManager m).
Qed.


Lemma tryReconnect_cases name m :
  tryReconnect name m = (false, m) \/
  tryReconnect name m = (false, set_pendingReconnect None m) \/
  exists pending player index,
    _pendingReconnect m = Some pending /\
    pr_playerName pending = Some name /\
    players m !! name = Some player /\
    index = findIndex (fun track =>
                         JsString.includes (pr_src pending) (src track))
                      (p_playlist player) /\
    0 <= index /\
    tryReconnect name m =
    (true,
     notifyStateChange
       (set_pendingReconnect None
          (set_currentIndex index
             (set_currentPlaylist (p_playlist player)
                (set_activePlayerName (Some name) m))))).
Proof.
  unfold tryReconnect.
  destruct (_pendingReconnect m) as [pending|]; [|by left].
  case_bool_decide as Hn; simpl; [|by left].
  destruct (players m !! name) as [player|]; [|by left].
  destruct (findIndex _ _ >=? 0) eqn:E; [|by right; left].
  right. right. eexists pending, player, _.
  split; [done|]. split; [done|]. split; [done|]. split; [reflexivity|].
  split; [by apply Z.geb_le in E | done].
Qed.

(** What [clearPlayers] leaves alone. *)
Lemma clearPlayers_core m :
  let m' := clearPlayers m in
  activePlayerName m' = activePlayerName m /\
  audio m' = audio m /\
  currentPlaylist m' = currentPlaylist m /\
  currentIndex m' = currentIndex m /\
  isPlaying m' = isPlaying m /\
  videoManager m' = videoManager m /\
  closures m' = closures m /\
  players m' = ∅ /\
  log m' = OnPlaylistChange [] :: log m.
Proof.
  simpl. unfold clearPlayers.
  destruct (destroy_all_core ((map_to_list (players m)).*2) m) as (Hc & Hlog).
  core_fields Hc. simpl. unfold getPlaylists. simpl.
  rewrite map_to_list_empty. simpl. rewrite Hlog. by repeat split.
Qed.

(** ** Stepping back *)


(** ** Unknown names, indices out of range *)


(** X3.  [playPlaylist] with an index outside the registered playlist still
    makes the playlist the active one, but keeps the previous [currentIndex]
    and the source loaded in the media element, and broadcasts no state;
    the media element is asked to play unless the playlist is empty. *)
Theorem playPlaylist_out_of_range
        (name : string) (player : Player) (index : Z) (m : AudioManager) :
  players m !! name = Some player ->
  ~ (0 <= index < Z.of_nat (length (p_playlist player))) ->
  let m' := playPlaylist name index m in
  activePlayerName m' = Some name /\
  currentPlaylist m' = p_playlist player /\
  currentIndex m' = currentIndex m /\
  audio m' = audio m /\
  isPlaying m' = isPlaying m /\
  log m' =
    (if bool_decide (p_playlist player = []) then []
     else if videoManager m then [AudioPlay; VideoPauseAll] else [AudioPlay])
    ++ log m.
Proof.
  intros Hp Hi. simpl. unfold playPlaylist. rewrite Hp.
  rewrite loadTrack_out_of_range by done.
  match goal with |- context [play ?x] => pose proof (play_core x) as Hc end.
  core_fields Hc. rewrite Hactive, Hplaylist, Hindex, Haudio, Hplaying.
  repeat split. rewrite play_log. simpl.
  by destruct (p_playlist player).
Qed.

(** X4.  [setActivePlaylist] of a registered playlist makes it the active
    one without ever asking the media element to play or pause.  With a
    first track it selects index 0 and loads that track; with no track it
    keeps the previous index and source. *)
Theorem setActivePlaylist_selects_without_playing
        (name : string) (player : Player) (m : AudioManager) :
  players m !! name = Some player ->
  let m' := setActivePlaylist name m in
  activePlayerName m' = Some name /\
  currentPlaylist m' = p_playlist player /\
  isPlaying m' = isPlaying m /\
  (exists new, log m' = new ++ log m /\
               Forall (fun o => isAudioRequest o = false) new) /\
  match p_playlist player with
  | first :: _ => currentIndex m' = 0 /\ a_src (audio m') = src first
  | [] => currentIndex m' = currentIndex m /\ audio m' = audio m
  end.
Proof.
  intros Hp. simpl. unfold setActivePlaylist. rewrite Hp.
  set (m0 := set_currentPlaylist (p_playlist player)
               (set_activePlayerName (Some name) m)).
  destruct (notifyStateChange_only_notifies (loadTrack 0 m0))
    as (Hc & new & Hlog & Hnew).
  core_fields Hc.
  destruct (loadTrack_keeps 0 m0)
    as (_ & Hact & Hpl & Hip & _).
  destruct (loadTrack_log 0 m0) as (new' & Hlog' & Hnew').
  rewrite Hactive, Hplaylist, Hplaying, Hindex, Haudio, Hact, Hpl, Hip.
  split; [done|]. split; [done|]. split; [done|]. split.
  - exists (new ++ new'). rewrite Hlog, Hlog'.
    split; [list_assoc | by apply Forall_app].
  - destruct (p_playlist player) as [|first rest] eqn:E.
    + by rewrite loadTrack_out_of_range
        by (subst m0; simpl; try rewrite E; simpl; lia).
    + destruct (loadTrack_fields 0 m0 first) as (Hi & Hs & _).
      { subst m0. simpl. try rewrite E. done. }
      done.
Qed.

(** X5.  [togglePlay()] does nothing when nothing is playing and there is no
    current playlist.  Otherwise it asks the media element to pause when
    [isPlaying] is true and to play when it is false; it never changes the
    selection or [isPlaying] itself. *)
Theorem togglePlay_requests (m : AudioManager) :
  let m' := togglePlay m in
  (isPlaying m = false -> currentPlaylist m = [] -> m' = m) /\
  (isPlaying m = true -> log m' = AudioPause :: log m) /\
  (isPlaying m = false -> currentPlaylist m <> [] ->
   exists new, log m' = AudioPlay :: new ++ log m /\
               Forall (fun o => isAudioRequest o = false) new) /\
  same_core m m'.
Proof.
  simpl. unfold togglePlay. split; [|split; [|split]].
  - intros -> Hp. unfold play. by rewrite Hp.
  - by intros ->.
  - intros -> Hp. rewrite play_log.
    rewrite bool_decide_eq_false_2
      by (destruct (currentPlaylist m); simpl; [done | lia]).
    destruct (videoManager m).
    + exists [VideoPauseAll]. split; [done|]. by repeat constructor.
    + by exists [].
  - destruct (isPlaying m); [apply emit_core | apply play_core].
Qed.

(** ** Playback steps *)

Lemma playback_step_refl m : playback_step m m.
Proof. by repeat split. Qed.

Lemma playback_step_trans m1 m2 m3 :
  playback_step m1 m2 -> playback_step m2 m3 -> playback_step m1 m3.
Proof.
  unfold playback_step.
  intros (-> & -> & -> & -> & -> & -> & -> & H) (-> & -> & -> & -> & -> & -> & -> & H').
  repeat split. auto.
Qed.

Lemma same_core_step m m' : same_core m m' -> playback_step m m'.
Proof. intros H. core_fields H. repeat split; try done. by rewrite Hindex. Qed.

Lemma loadTrack_step index m : playback_step m (loadTrack index m).
Proof.
  destruct (loadTrack_keeps index m) as (? & ? & ? & ? & ? & ? & ? & _ & _ & ?).
  by repeat split.
Qed.

Lemma next_step m : playback_step m (next m).
Proof.
  unfold next. destruct (_ <? _);
    (eapply playback_step_trans; [apply loadTrack_step|]);
    apply same_core_step; [apply play_core | apply emit_core].
Qed.

Lemma previous_step m : playback_step m (previous m).
Proof.
  unfold previous. destruct (negb _); [by repeat split|].
  destruct (_ >? _); [|apply playback_step_refl].
  destruct (isPlaying _); [|apply loadTrack_step].
  eapply playback_step_trans; [apply loadTrack_step|].
  apply same_core_step, play_core.
Qed.

Lemma togglePlay_core m : same_core m (togglePlay m).
Proof. unfold togglePlay. destruct (isPlaying m); [apply emit_core | apply play_core]. Qed.

(** An event of the media element is a playback step, but for [isPlaying]. *)
(** Closes [0 <= currentIndex m -> 0 <= currentIndex m'] from an equation
    between the two indices, stated up to conversion. *)
Ltac index_kept H :=
  intros ?; etransitivity;
  [eassumption | apply Z.eq_le_incl; symmetry; exact H].

Lemma dispatch_step m e :
  playback_step (set_isPlaying (isPlaying (dispatch m e)) m) (dispatch m e).
Proof.
  destruct e; simpl.
  - match goal with
    | |- context [_notifyTimeListeners ?t ?x] =>
        pose proof (forEach_from_core TimeChannel
                      (fun cb => TimeListenerCall cb t)
                      (length (listeners TimeChannel x)) 0 x) as Hc
    end.
    unfold _notifyTimeListeners, forEach. core_fields Hc.
    repeat split; try done; index_kept Hindex.
  - pose proof (next_step m) as (? & ? & ? & ? & ? & ? & ? & ?).
    by repeat split.
  - pose proof (notifyStateChange_core (set_isPlaying true m)) as Hc.
    core_fields Hc. repeat split; try done; index_kept Hindex.
  - pose proof (notifyStateChange_core (set_isPlaying false m)) as Hc.
    core_fields Hc. repeat split; try done; index_kept Hindex.
  - pose proof (notifyStateChange_core
                  (set_isPlaying false (emit ConsoleError m))) as Hc.
    core_fields Hc. repeat split; try done; index_kept Hindex.
  - match goal with
    | |- context [notifyStateChange ?x] =>
        pose proof (notifyStateChange_core x) as Hc
    end.
    core_fields Hc. repeat split; try done; index_kept Hindex.
  - pose proof (notifyStateChange_core
                  (set_isPlaying false (emit ConsoleError m))) as Hc.
    core_fields Hc. repeat split; try done; index_kept Hindex.
Qed.

(** ** The interface as a whole *)

(** Reads [isPlaying] through a state broadcast. *)
Ltac via_notify :=
  match goal with
  | |- context [notifyStateChange ?x] =>
      by destruct (notifyStateChange_core x) as (_ & _ & _ & _ & _ & -> & _)
  end.

(** X6.  No method of the manager writes [isPlaying]: whatever is called
    ([register], [unregister], [clearPlayers], [tryReconnect],
    [setActivePlaylist], [playPlaylist], [loadTrack], [play], [pause],
    [togglePlay], [next], [previous], [setWaveform], subscribing,
    unsubscribing), [isPlaying] is afterwards what it was.  Only the events
    of the media element change it: [play] sets it, [pause], [error] and a
    rejected play request clear it, the other events keep it. *)
Theorem isPlaying_follows_events (m : AudioManager) (c : Command) :
  isPlaying (exec m c) =
  match c with
  | Fire Play => true
  | Fire (Pause | Error | PlayRejected) => false
  | _ => isPlaying m
  end.
Proof.
  destruct c as [| | | | | | | | | | | | | | |e]; simpl.
  - done.
  - unfold unregister. by destruct (bool_decide _).
  - apply clearPlayers_core.
  - destruct (tryReconnect_cases name m)
      as [->|[->|(p & pl & i & _ & _ & _ & _ & _ & ->)]]; [done..|].
    simpl. match goal with
           | |- context [notifyStateChange ?x] =>
               by destruct (notifyStateChange_core x)
                 as (_ & _ & _ & _ & _ & -> & _)
           end.
  - unfold setActivePlaylist. destruct (players m !! name); [|done].
    match goal with
    | |- context [notifyStateChange (loadTrack 0 ?x)] =>
        destruct (notifyStateChange_core (loadTrack 0 x))
          as (_ & _ & _ & _ & _ & -> & _);
        by destruct (loadTrack_step 0 x) as (_ & _ & _ & -> & _)
    end.
  - unfold playPlaylist. destruct (players m !! name); [|done].
    match goal with
    | |- context [play (loadTrack ?i ?x)] =>
        destruct (play_core (loadTrack i x))
          as (_ & _ & _ & _ & _ & -> & _);
        by destruct (loadTrack_step i x) as (_ & _ & _ & -> & _)
    end.
  - apply loadTrack_step.
  - apply play_core.
  - done.
  - apply togglePlay_core.
  - apply next_step.
  - apply previous_step.
  - unfold setWaveform. by destruct (players m !! playerName).
  - by destruct ch.
  - by destruct (d_channel d).
  - destruct e; simpl; try via_notify.
    + unfold _notifyTimeListeners, forEach.
      match goal with
      | |- context [forEach_from ?c ?f ?n ?k ?x] =>
          by destruct (forEach_from_core c f n k x)
            as (_ & _ & _ & _ & _ & -> & _)
      end.
    + apply next_step.
Qed.

Lemma playback_step_well_formed m m' :
  playback_step m m' -> well_formed m -> well_formed m'.
Proof.
  intros (_ & Ha & Hp & _ & _ & _ & _ & Hi) [H0 Hn].
  split; [auto|]. rewrite Ha, Hp. exact Hn.
Qed.

Lemma exec_well_formed m c : well_formed m -> well_formed (exec m c).
Proof.
  intros Hw. pose proof Hw as [H0 Hn].
  destruct c as [| | | | | | | | | | | | | | |e]; simpl.
  - done.
  - unfold unregister. by destruct (bool_decide _).
  - destruct (clearPlayers_core m) as (Ha & _ & Hp & Hi & _).
    split; [by rewrite Hi | by rewrite Ha, Hp].
  - destruct (tryReconnect_cases name m)
      as [->|[->|(p & pl & i & _ & _ & _ & _ & Hi & ->)]]; [done..|].
    simpl. match goal with
           | |- context [notifyStateChange ?x] =>
               pose proof (notifyStateChange_core x) as Hc
           end.
    core_fields Hc. split; [by rewrite Hindex | by rewrite Hactive].
  - unfold setActivePlaylist. destruct (players m !! name); [|done].
    match goal with
    | |- context [notifyStateChange (loadTrack 0 ?x)] =>
        apply (playback_step_well_formed x);
        [eapply playback_step_trans;
         [apply loadTrack_step | apply same_core_step, notifyStateChange_core]|]
    end.
    by split.
  - unfold playPlaylist. destruct (players m !! name); [|done].
    match goal with
    | |- context [play (loadTrack ?i ?x)] =>
        apply (playback_step_well_formed x);
        [eapply playback_step_trans;
         [apply loadTrack_step | apply same_core_step, play_core]|]
    end.
    by split.
  - apply (playback_step_well_formed m); [apply loadTrack_step | done].
  - apply (playback_step_well_formed m); [apply same_core_step, play_core | done].
  - done.
  - apply (playback_step_well_formed m);
      [apply same_core_step, togglePlay_core | done].
  - apply (playback_step_well_formed m); [apply next_step | done].
  - apply (playback_step_well_formed m); [apply previous_step | done].
  - unfold setWaveform. by destruct (players m !! playerName).
  - by destruct ch.
  - by destruct (d_channel d).
  - by apply (playback_step_well_formed _ _ (dispatch_step m e)).
Qed.

(** X7.  In every state that calls of the interface and events of the media
    element can reach from a new manager, [currentIndex] is not negative,
    and when no playlist is active there is no current playlist either:
    [getCurrentTrack()] returns null and [play()] does nothing. *)
Theorem reachable_states_are_well_formed
        (video : bool) (cl : nat -> list ListenerAction)
        (commands : list Command) :
  let m := fold_left exec commands (new_AudioManager video cl) in
  0 <= currentIndex m /\
  (activePlayerName m = None ->
   currentPlaylist m = [] /\ getCurrentTrack m = TrackNull /\ play m = m).
Proof.
  simpl.
  assert (Hw : well_formed (fold_left exec commands (new_AudioManager video cl))).
  { assert (H0 : well_formed (new_AudioManager video cl)) by by split.
    revert H0. generalize (new_AudioManager video cl).
    induction commands as [|c commands IH]; intros m Hm; simpl; [done|].
    by apply IH, exec_well_formed. }
  destruct Hw as [H0 Hn]. split; [done|]. intros Ha.
  specialize (Hn Ha). unfold getCurrentTrack, play. by rewrite Hn.
Qed.

(** ** The loaded source and the current track *)

Lemma synced_transfer m m' :
  currentPlaylist m' = currentPlaylist m ->
  currentIndex m' = currentIndex m ->
  a_src (audio m') = a_src (audio m) ->
  synced m -> synced m'.
Proof. intros Hp Hi Hs (t & Ht & Hsrc). exists t. by rewrite Hp, Hi, Hs. Qed.

Lemma same_core_synced m m' : same_core m m' -> synced m -> synced m'.
Proof. intros H. core_fields H. apply synced_transfer; congruence. Qed.

Lemma loadTrack_synced index m : synced m -> synced (loadTrack index m).
Proof.
  intros Hs. destruct (at_index (currentPlaylist m) index) as [t|] eqn:E.
  - destruct (loadTrack_fields index m t E) as (Hi & Hsrc & _ & _ & Hp & _).
    exists t. by rewrite Hp, Hi.
  - destruct (loadTrack_cases index m) as [->|(t & Ht & _)]; [done|congruence].
Qed.

Lemma next_synced m : synced m -> synced (next m).
Proof.
  intros Hs. unfold next. destruct (_ <? _).
  - eapply same_core_synced; [apply play_core | by apply loadTrack_synced].
  - eapply same_core_synced; [apply emit_core | by apply loadTrack_synced].
Qed.

Lemma previous_synced m : synced m -> synced (previous m).
Proof.
  intros Hs. unfold previous. destruct (negb _).
  - by apply (synced_transfer m).
  - destruct (_ >? _); [|done]. destruct (isPlaying _).
    + eapply same_core_synced; [apply play_core | by apply loadTrack_synced].
    + by apply loadTrack_synced.
Qed.

Lemma dispatch_synced m e : synced m -> synced (dispatch m e).
Proof.
  intros Hs. destruct e; simpl.
  - unfold _notifyTimeListeners, forEach.
    match goal with
    | |- context [forEach_from ?c ?f ?n ?k ?x] =>
        apply (same_core_synced x); [apply forEach_from_core|]
    end.
    by apply (synced_transfer m).
  - by apply next_synced.
  - eapply same_core_synced; [apply notifyStateChange_core|].
    by apply (synced_transfer m).
  - eapply same_core_synced; [apply notifyStateChange_core|].
    by apply (synced_transfer m).
  - eapply same_core_synced; [apply notifyStateChange_core|].
    by apply (synced_transfer m).
  - match goal with
    | |- context [notifyStateChange ?x] =>
        apply (same_core_synced (notifyStateChange x)); [apply emit_core|];
        apply (same_core_synced x); [apply notifyStateChange_core|]
    end.
    by apply (synced_transfer m).
  - eapply same_core_synced; [apply notifyStateChange_core|].
    by apply (synced_transfer m).
Qed.

Lemma exec_synced m c : selects c = false -> synced m -> synced (exec m c).
Proof.
  intros Hc Hs.
  destruct c as [| | | | | | | | | | | | | | |e]; simpl; try discriminate Hc.
  - by apply (synced_transfer m).
  - destruct (clearPlayers_core m) as (_ & Ha & Hp & Hi & _).
    apply (synced_transfer m); congruence.
  - by apply loadTrack_synced.
  - apply (same_core_synced m); [apply play_core | done].
  - by apply (synced_transfer m).
  - apply (same_core_synced m); [apply togglePlay_core | done].
  - by apply next_synced.
  - by apply previous_synced.
  - unfold setWaveform. destruct (players m !! playerName); [|done].
    by apply (synced_transfer m).
  - apply (synced_transfer m); by destruct ch.
  - apply (synced_transfer m); by destruct (d_channel d).
  - by apply dispatch_synced.
Qed.

(** X8.  Once [playPlaylist] has started a registered playlist at one of its
    indices, the media element has the source of the current track loaded,
    and this stays so through any calls and events that do not select a
    playlist ([register], [clearPlayers], [loadTrack], [play], [pause],
    [togglePlay], [next], [previous], [setWaveform], subscriptions, events):
    [getCurrentTrack()] is a track and its [src] is the element's source. *)
Theorem loaded_source_is_current_track
        (name : string) (player : Player) (index : Z)
        (commands : list Command) (m : AudioManager) :
  players m !! name = Some player ->
  0 <= index < Z.of_nat (length (p_playlist player)) ->
  Forall (fun c => selects c = false) commands ->
  let m' := fold_left exec commands (playPlaylist name index m) in
  exists t, getCurrentTrack m' = TrackObject t /\
            a_src (audio m') = src t /\
            activePlayerName m' = Some name /\
            currentPlaylist m' = p_playlist player.
Proof.
  intros Hp Hi Hcs. simpl.
  set (m0 := set_currentPlaylist (p_playlist player)
               (set_activePlayerName (Some name) m)).
  assert (H1 : synced (playPlaylist name index m) /\
               activePlayerName (playPlaylist name index m) = Some name /\
               currentPlaylist (playPlaylist name index m) = p_playlist player).
  { unfold playPlaylist. rewrite Hp. fold m0.
    destruct (at_index_in_range (currentPlaylist m0) index Hi) as [t Ht].
    destruct (loadTrack_fields index m0 t Ht)
      as (Hidx & Hsrc & _ & _ & Hpl & Hact & _).
    pose proof (play_core (loadTrack index m0)) as Hc. core_fields Hc.
    assert (Ha0 : activePlayerName m0 = Some name) by reflexivity.
    assert (Hp0 : currentPlaylist m0 = p_playlist player) by reflexivity.
    split; [|split; congruence].
    exists t. by rewrite Hplaylist, Hindex, Haudio, Hpl, Hidx. }
  revert H1. generalize (playPlaylist name index m).
  induction Hcs as [|c commands Hc Hcs IH]; intros m1 (Hs & Ha & Hpl); simpl.
  - destruct Hs as (t & Ht & Hsrc). exists t.
    unfold getCurrentTrack. rewrite Ht.
    rewrite bool_decide_eq_false_2; [done|].
    apply at_index_Some in Ht as [Ht _].
    destruct (currentPlaylist m1); simpl in *; [lia | done].
  - apply IH. split; [by apply exec_synced|].
    clear IH Hcs Hs.
    destruct c as [| | | | | | | | | | | | | | |e]; cbn [exec];
      try discriminate Hc.
    + done.
    + destruct (clearPlayers_core m1) as (-> & _ & -> & _). done.
    + destruct (loadTrack_step index0 m1) as (_ & -> & -> & _). done.
    + pose proof (play_core m1) as H. core_fields H. by rewrite Hactive, Hplaylist.
    + done.
    + pose proof (togglePlay_core m1) as H. core_fields H.
      by rewrite Hactive, Hplaylist.
    + destruct (next_step m1) as (_ & -> & -> & _). done.
    + destruct (previous_step m1) as (_ & -> & -> & _). done.
    + unfold setWaveform. by destruct (players m1 !! playerName).
    + by destruct ch.
    + by destruct (d_channel d).
    + destruct (dispatch_step m1 e) as (_ & -> & -> & _). done.
Qed.

(** ** End of track *)

Lemma next_below_last m :
  0 <= currentIndex m ->
  currentIndex m < Z.of_nat (length (currentPlaylist m)) - 1 ->
  currentIndex (next m) = currentIndex m + 1 /\
  head (log (next m)) = Some AudioPlay.
Proof.
  intros H0 H1. unfold next. rewrite (proj2 (Z.ltb_lt _ _) H1).
  destruct (at_index_in_range (currentPlaylist m) (currentIndex m + 1))
    as [t Ht]; [lia|].
  destruct (loadTrack_fields _ m t Ht) as (Hi & _ & _ & _ & Hp & _).
  pose proof (play_core (loadTrack (currentIndex m + 1) m)) as Hc.
  core_fields Hc. split; [congruence|].
  rewrite play_log, Hp.
  rewrite bool_decide_eq_false_2
    by (destruct (currentPlaylist m); simpl in *; lia).
  match goal with
  | |- context [if videoManager ?x then _ else _] =>
      by destruct (videoManager x)
  end.
Qed.

Lemma next_at_last m :
  currentPlaylist m <> [] ->
  Z.of_nat (length (currentPlaylist m)) - 1 <= currentIndex m ->
  currentIndex (next m) = 0 /\
  head (log (next m)) = Some AudioPause.
Proof.
  intros Hne H1. unfold next. rewrite (proj2 (Z.ltb_ge _ _) H1).
  destruct (at_index_in_range (currentPlaylist m) 0) as [t Ht].
  { destruct (currentPlaylist m); simpl; [done | lia]. }
  by destruct (loadTrack_fields _ m t Ht) as (Hi & _).
Qed.

Lemma ended_events_advance k : forall m,
  0 <= currentIndex m ->
  currentIndex m + Z.of_nat k <= Z.of_nat (length (currentPlaylist m)) - 1 ->
  let m' := fold_left dispatch (replicate k Ended) m in
  currentIndex m' = currentIndex m + Z.of_nat k /\
  currentPlaylist m' = currentPlaylist m /\
  isPlaying m' = isPlaying m /\
  (k <> 0%nat -> head (log m') = Some AudioPlay).
Proof.
  induction k as [|k IH]; intros m H0 H1; simpl.
  - split; [lia | done].
  - destruct (next_below_last m H0) as [Hi Hl]; [lia|].
    destruct (next_step m) as (_ & _ & Hp & Hpl & _).
    destruct (IH (next m)) as (Hi' & Hp' & Hpl' & Hl'); [lia | rewrite Hp; lia|].
    split; [lia|]. split; [congruence|]. split; [congruence|].
    intros _. destruct k; [exact Hl | by apply Hl'].
Qed.

(** X9.  From a track of the current playlist, each [ended] event of the
    media element moves to the following track and asks the element to
    play, until the last track is reached; the [ended] event of the last
    track selects track 0 and asks the element to pause.  None of this
    writes [isPlaying]. *)
Theorem ended_events_walk_the_playlist (k : nat) (m : AudioManager) :
  0 <= currentIndex m ->
  currentIndex m + Z.of_nat k = Z.of_nat (length (currentPlaylist m)) - 1 ->
  let m' := fold_left dispatch (replicate k Ended) m in
  currentIndex m' = Z.of_nat (length (currentPlaylist m)) - 1 /\
  (k <> 0%nat -> head (log m') = Some AudioPlay) /\
  currentIndex (dispatch m' Ended) = 0 /\
  head (log (dispatch m' Ended)) = Some AudioPause /\
  currentPlaylist (dispatch m' Ended) = currentPlaylist m /\
  isPlaying (dispatch m' Ended) = isPlaying m.
Proof.
  intros H0 H1. simpl.
  destruct (ended_events_advance k m H0) as (Hi & Hp & Hpl & Hl); [lia|].
  set (m' := fold_left dispatch (replicate k Ended) m) in *.
  destruct (next_at_last m') as [Hi' Hl'].
  { rewrite Hp. intros E. rewrite E in H1. simpl in H1. lia. }
  { rewrite Hp. lia. }
  destruct (next_step m') as (_ & _ & Hp' & Hpl' & _).
  split; [lia|]. split; [done|]. split; [done|]. split; [done|].
  split; congruence.
Qed.

(** ** Waveforms *)

(** X10.  For a registered playlist, [setWaveform] followed by [getWaveform]
    at the same name and index gives the data back, and
    [getCurrentWaveform()] gives them when the playlist is the active one
    and the index the current one; every other waveform, the track list,
    the selection and the log are untouched. *)
Theorem setWaveform_then_getWaveform
        (name : string) (player : Player) (index : Z) (data : WaveformData)
        (m : AudioManager) :
  players m !! name = Some player ->
  let m' := setWaveform name index data m in
  getWaveform name index m' = Some data /\
  (forall name' index',
      (name', index') <> (name, index) ->
      getWaveform name' index' m' = getWaveform name' index' m) /\
  (exists player', players m' !! name = Some player' /\
                   p_playlist player' = p_playlist player) /\
  same_core (set_players (players m') m) m' /\ log m' = log m /\
  (activePlayerName m = Some name -> name <> EmptyString ->
   currentIndex m = index -> getCurrentWaveform m' = Some data).
Proof.
  intros Hp. simpl.
  assert (Hget : getWaveform name index (setWaveform name index data m)
                 = Some data).
  { rewrite (getWaveform_setWaveform _ _ _ _ player) by done.
    by rewrite decide_True. }
  split; [done|]. split; [|split; [|split; [|split]]].
  - intros name' index' Hne. destruct (decide (name' = name)) as [->|Hn].
    + rewrite (getWaveform_setWaveform _ _ _ _ player) by done.
      rewrite decide_False; [done | congruence].
    + unfold getWaveform, setWaveform. rewrite Hp. simpl.
      by rewrite lookup_insert_ne.
  - unfold setWaveform. rewrite Hp. simpl. eexists.
    split; [apply lookup_insert_eq | done].
  - unfold setWaveform. rewrite Hp. by repeat split.
  - unfold setWaveform. by rewrite Hp.
  - intros Ha Hne Hi. unfold getCurrentWaveform.
    assert (activePlayerName (setWaveform name index data m) = Some name) as ->.
    { unfold setWaveform. by rewrite Hp. }
    rewrite bool_decide_eq_false_2 by done.
    assert (currentIndex (setWaveform name index data m) = index) as ->;
      [|done].
    unfold setWaveform. by rewrite Hp.
Qed.

(** X11.  The waveforms stored for a registered playlist (under a name
    other than [__proto__], which names no property of the registry) do not
    survive its unregistration, nor a clearing of the registry: after
    [unregister(name)] or [clearPlayers()], nothing is registered under the
    name, and registering it again starts from an empty cache, whatever had
    been stored. *)
Theorem waveforms_lost_with_registration
        (name : string) (player : Player) (playlist : list Track)
        (options : Options) (index : Z) (data : WaveformData)
        (m : AudioManager) :
  name <> "__proto__"%string ->
  players m !! name = Some player ->
  let stored := setWaveform name index data m in
  getWaveform name index stored = Some data /\
  players (unregister name stored) !! name = None /\
  players (clearPlayers stored) !! name = None /\
  (forall i,
      getWaveform name i (register name playlist options (unregister name stored))
      = None) /\
  (forall i,
      getWaveform name i (register name playlist options (clearPlayers stored))
      = None).
Proof.
  intros _ Hp. cbv zeta. split.
  { rewrite (getWaveform_setWaveform _ _ _ _ _ _ Hp).
    by destruct (decide (index = index)). }
  set (stored := setWaveform name index data m).
  assert (H1 : players (unregister name stored) !! name = None).
  { unfold unregister. destruct (bool_decide _); simpl;
      by rewrite lookup_delete_eq. }
  assert (H2 : players (clearPlayers stored) !! name = None).
  { destruct (clearPlayers_core stored)
      as (_ & _ & _ & _ & _ & _ & _ & -> & _).
    by rewrite lookup_empty. }
  split; [done|]. split; [done|]. split; intros i;
    rewrite getWaveform_register; unfold getWaveform.
  - by rewrite H1.
  - by rewrite H2.
Qed.

(** ** The list of playlists *)


(** ** Playlist data and its cache *)

Lemma events_keep_registry events : forall m,
  let m' := fold_left dispatch events m in
  players m' = players m /\ activePlayerName m' = activePlayerName m.
Proof.
  induction events as [|e events IH]; intros m; simpl; [done|].
  destruct (IH (dispatch m e)) as [-> ->].
  by destruct (dispatch_step m e) as (-> & -> & _).
Qed.

(** X13.  Once [getActivePlaylistData()] has been read while the active
    playlist is registered, under a name that is not the name of a member of
    [Object.prototype], the same name, artist, year and tracks are still
    returned after [clearPlayers()] and any events of the media element, with
    the index that is then current.  If nothing was cached, the call returns
    null after [clearPlayers()]. *)
Theorem playlist_data_survives_clear
        (name : string) (player : Player) (events : list AudioEvent)
        (cm : CachingManager) :
  activePlayerName (manager cm) = Some name ->
  name <> EmptyString ->
  name ∉ objectPrototypeKeys ->
  players (manager cm) !! name = Some player ->
  let read := getActivePlaylistData cm in
  let after := fun cm0 =>
    onManager (fun m => fold_left dispatch events (clearPlayers m)) cm0 in
  read.1 = Some {| pd_name := p_name player; pd_artist := p_artist player;
                   pd_year := p_year player; pd_tracks := p_playlist player;
                   pd_currentIndex := currentIndex (manager cm) |} /\
  (p_name player = name ->
   (getActivePlaylistData (after read.2)).1 =
   Some {| pd_name := p_name player; pd_artist := p_artist player;
           pd_year := p_year player; pd_tracks := p_playlist player;
           pd_currentIndex := currentIndex (manager (after read.2)) |}) /\
  (_cachedActivePlaylist cm = None ->
   (getActivePlaylistData (after cm)).1 = None) /\
  (forall cm0,
      activePlayerName (manager cm0) = Some name ->
      lookupPlayer (manager (after cm0)) name = Undefined).
Proof.
  intros Ha Hne Hname Hp. simpl.
  assert (Hread : getActivePlaylistData cm =
                  (Some {| pd_name := p_name player;
                           pd_artist := p_artist player;
                           pd_year := p_year player;
                           pd_tracks := p_playlist player;
                           pd_currentIndex := currentIndex (manager cm) |},
                   {| manager := manager cm;
                      _cachedActivePlaylist :=
                        Some {| cp_name := p_name player;
                                cp_artist := p_artist player;
                                cp_year := p_year player;
                                cp_tracks := p_playlist player |} |})).
  { unfold getActivePlaylistData, getPlaylistData. rewrite Ha, Hp.
    rewrite bool_decide_eq_false_2 by done.
    by rewrite bool_decide_eq_true_2. }
  assert (Hafter : forall m,
             activePlayerName m = Some name ->
             let m' := fold_left dispatch events (clearPlayers m) in
             activePlayerName m' = Some name /\ players m' !! name = None).
  { intros m Hm. simpl.
    destruct (events_keep_registry events (clearPlayers m)) as [-> ->].
    destruct (clearPlayers_core m) as (-> & _ & _ & _ & _ & _ & _ & -> & _).
    by rewrite lookup_empty. }
  rewrite Hread. simpl. split; [done|]. split; [|split].
  - intros Hpn. destruct (Hafter (manager cm) Ha) as [Ha' Hp'].
    unfold getActivePlaylistData, getPlaylistData, onManager. simpl.
    rewrite Ha', Hp'. rewrite bool_decide_eq_false_2 by done. simpl.
    by rewrite bool_decide_eq_true_2.
  - intros Hc. destruct (Hafter (manager cm) Ha) as [Ha' Hp'].
    unfold getActivePlaylistData, getPlaylistData, onManager. simpl.
    rewrite Ha', Hp', Hc. by rewrite bool_decide_eq_false_2.
  - intros cm0 Ha0. destruct (Hafter (manager cm0) Ha0) as [_ Hp'].
    by apply lookupPlayer_undefined.
Qed.

(** ** Clearing the registry releases the widgets' listeners *)

Lemma dispose_count_other x y arr :
  x <> y ->
  count_occ Nat.eq_dec (dispose x arr) y = count_occ Nat.eq_dec arr y.
Proof.
  intros Hne. destruct (decide (x ∈ arr)) as [Hin|Hout].
  - apply list_elem_of_split_l in Hin as (pre & post & -> & Hpre).
    rewrite dispose_first by done.
    by rewrite !count_occ_app, count_occ_cons_neq.
  - by rewrite dispose_absent.
Qed.

Lemma dispose_count_self x arr :
  count_occ Nat.eq_dec (dispose x arr) x
  = Nat.pred (count_occ Nat.eq_dec arr x).
Proof.
  destruct (decide (x ∈ arr)) as [Hin|Hout].
  - apply list_elem_of_split_l in Hin as (pre & post & -> & Hpre).
    rewrite dispose_first by done.
    rewrite !count_occ_app, count_occ_cons_eq by done.
    assert (count_occ Nat.eq_dec pre x = 0%nat) as ->; [|done].
    apply count_occ_not_In. by rewrite <- list_elem_of_In.
  - rewrite dispose_absent by done.
    assert (count_occ Nat.eq_dec arr x = 0%nat) as ->; [|done].
    apply count_occ_not_In. by rewrite <- list_elem_of_In.
Qed.

Lemma dispose_count_le x y arr :
  (count_occ Nat.eq_dec (dispose x arr) y <= count_occ Nat.eq_dec arr y)%nat.
Proof.
  destruct (decide (x = y)) as [->|Hne].
  - rewrite dispose_count_self. lia.
  - by rewrite dispose_count_other.
Qed.

Lemma destroy_listeners ch w m :
  listeners ch (destroy w m) =
  match storedCallback ch w with
  | Some cb => dispose cb (listeners ch m)
  | None => listeners ch m
  end.
Proof.
  unfold destroy, storedCallback.
  by destruct ch, (_unsubscribeState w), (_unsubscribeTime w).
Qed.

Lemma destroyPlayer_count_le ch cb m player :
  (count_occ Nat.eq_dec (listeners ch (destroyPlayer m player)) cb
   <= count_occ Nat.eq_dec (listeners ch m) cb)%nat.
Proof.
  unfold destroyPlayer. destruct (opt_player _) as [w|]; [|done].
  rewrite destroy_listeners.
  destruct (storedCallback ch w); [apply dispose_count_le | done].
Qed.

Lemma destroy_all_count_le ch cb l : forall m,
  (count_occ Nat.eq_dec (listeners ch (fold_left destroyPlayer l m)) cb
   <= count_occ Nat.eq_dec (listeners ch m) cb)%nat.
Proof.
  induction l as [|p l IH]; intros m; simpl; [done|].
  etransitivity; [apply IH | apply destroyPlayer_count_le].
Qed.

Lemma destroy_all_removes ch cb w player l : forall m,
  player ∈ l ->
  opt_player (p_options player) = Some w ->
  storedCallback ch w = Some cb ->
  (count_occ Nat.eq_dec (listeners ch (fold_left destroyPlayer l m)) cb
   <= Nat.pred (count_occ Nat.eq_dec (listeners ch m) cb))%nat.
Proof.
  induction l as [|p l IH]; intros m Hin Hw Hcb; [by apply elem_of_nil in Hin|].
  simpl. apply elem_of_cons in Hin as [<-|Hin].
  - etransitivity; [apply destroy_all_count_le|].
    unfold destroyPlayer. rewrite Hw, destroy_listeners, Hcb.
    by rewrite dispose_count_self.
  - etransitivity; [by apply IH|].
    pose proof (destroyPlayer_count_le ch cb m p). lia.
Qed.

(** X14.  [clearPlayers()] calls the disposers of every widget registered
    under a name other than [__proto__], which names no property of the
    registry: a listener that such a widget holds a disposer for, and that
    is registered once, is no longer registered afterwards, and no listener
    is ever added by the call. *)
Theorem clearPlayers_releases_listeners
        (name : string) (player : Player) (w : AudioPlayer)
        (ch : Channel) (cb : nat) (m : AudioManager) :
  name <> "__proto__"%string ->
  players m !! name = Some player ->
  opt_player (p_options player) = Some w ->
  storedCallback ch w = Some cb ->
  (count_occ Nat.eq_dec (listeners ch m) cb <= 1)%nat ->
  (cb ∉ listeners ch (clearPlayers m)) /\
  forall cb',
    (count_occ Nat.eq_dec (listeners ch (clearPlayers m)) cb'
     <= count_occ Nat.eq_dec (listeners ch m) cb')%nat.
Proof.
  intros _ Hp Hw Hcb Hc.
  assert (Hl : listeners ch (clearPlayers m) =
               listeners ch (fold_left destroyPlayer
                                       ((map_to_list (players m)).*2) m))
    by by destruct ch.
  rewrite Hl. split.
  - assert (Hin : player ∈ (map_to_list (players m)).*2).
    { apply list_elem_of_fmap. exists (name, player).
      split; [done | by apply elem_of_map_to_list]. }
    pose proof (destroy_all_removes ch cb w player _ m Hin Hw Hcb) as H.
    intros Hcontra. apply list_elem_of_In in Hcontra.
    apply (count_occ_In Nat.eq_dec) in Hcontra. lia.
  - intros cb'. apply destroy_all_count_le.
Qed.

(** ** Reconnecting after a navigation *)

(** X15.  The navigation round trip: the registry is cleared while [name]
    is the active playlist, the playlist registers again under [name] (a name
    other than [__proto__]) and calls [tryReconnect].  The track adopted is
    the first one whose [src] occurs in the source string that the media
    element held when the registry was cleared, whatever that string is: the
    call returns true and the session is on that playlist at that index,
    the media element being left as it was (nothing loaded, no play or pause
    request), [isPlaying] kept and the pending record consumed. *)
Theorem navigation_round_trip
        (name : string) (pre : list Track) (t : Track) (post : list Track)
        (options : Options) (m : AudioManager) :
  activePlayerName m = Some name ->
  name <> "__proto__"%string ->
  Forall (fun t' => JsString.includes (a_src (audio m)) (src t') = false) pre ->
  JsString.includes (a_src (audio m)) (src t) = true ->
  let m2 := register name (pre ++ t :: post) options (clearPlayers m) in
  exists m',
    tryReconnect_call name m2 = Returns (true, m') /\
    activePlayerName m' = Some name /\
    currentPlaylist m' = pre ++ t :: post /\
    currentIndex m' = Z.of_nat (length pre) /\
    audio m' = audio m /\
    isPlaying m' = isPlaying m /\
    _pendingReconnect m' = None /\
    exists new, log m' = new ++ log m2 /\
                Forall (fun o => isAudioRequest o = false) new.
Proof.
  intros Ha _ Hpre Ht. cbv zeta.
  destruct (clearPlayers_core m) as (_ & Hau2 & _ & _ & Hip2 & _).
  unfold tryReconnect_call.
  assert (_pendingReconnect
            (register name (pre ++ t :: post) options (clearPlayers m))
          = Some {| pr_playerName := Some name; pr_src := a_src (audio m);
                    pr_time := a_currentTime (audio m);
                    pr_playing := isPlaying m |}) as ->.
  { unfold register, clearPlayers. simpl. by rewrite Ha. }
  simpl pr_playerName. rewrite bool_decide_eq_true_2 by done.
  rewrite (lookupPlayer_own _ _
             {| p_name := name; p_playlist := pre ++ t :: post;
                p_options := options;
                p_artist := orNull (opt_artist options);
                p_year := orNull (opt_year options);
                p_waveforms := ∅ |})
    by (unfold register; simpl; by rewrite lookup_insert_eq, lookup_empty).
  cbn [negb p_playlist pr_src]. unfold findIndex.
  rewrite findIndex_from_some by done. rewrite Z.add_0_l.
  assert ((Z.of_nat (length pre) >=? 0) = true) as ->
    by (apply Z.geb_le; lia).
  eexists. split; [reflexivity|].
  match goal with
  | |- context [notifyStateChange ?x] =>
      destruct (notifyStateChange_only_notifies x) as (Hc & new & Hlog & Hnew)
  end.
  core_fields Hc.
  rewrite Hactive, Hplaylist, Hindex, Haudio, Hplaying, Hpending.
  split; [done|]. split; [done|]. split; [done|].
  split; [by rewrite <- Hau2|]. split; [by rewrite <- Hip2|].
  split; [done|]. by exists new.
Qed.

(** ** Subscribing and unsubscribing *)

(** X16.  Subscribing a callback and calling the disposer obtained restores
    the manager exactly when the callback was not registered before.  When
    it was, the disposer removes the earlier registration and the new one
    stays at the end of the array. *)
Theorem subscribe_then_dispose
        (ch : Channel) (callback : nat) (m : AudioManager) :
  let added := addListener ch callback m in
  (callback ∉ listeners ch m -> callDisposer added.2 added.1 = m) /\
  (forall pre post,
      listeners ch m = pre ++ callback :: post -> callback ∉ pre ->
      listeners ch (callDisposer added.2 added.1)
      = pre ++ post ++ [callback]).
Proof.
  simpl. unfold callDisposer. simpl. split.
  - intros Hout. rewrite listeners_set, set_listeners_set.
    replace (listeners ch m ++ [callback])
      with (listeners ch m ++ callback :: []) by done.
    rewrite dispose_first by done.
    by rewrite app_nil_r, set_listeners_same.
  - intros pre post Hl Hpre. rewrite !listeners_set, Hl.
    replace ((pre ++ callback :: post) ++ [callback])
      with (pre ++ callback :: (post ++ [callback])) by list_assoc.
    by rewrite dispose_first.
Qed.

(** ** Time updates *)

(** X17.  A [timeupdate] event records the position reported by the media
    element and makes no state broadcast and no request to the element.
    When the time listeners leave the time channel's array alone, the legacy
    callback and then every time listener, once and in registration order,
    receive the position and the duration (0 while it is unknown). *)
Theorem timeupdate_reaches_time_listeners (t : Q) (m : AudioManager) :
  let m' := dispatch m (Timeupdate t) in
  let time := {| ti_currentTime := t; ti_duration := durationOrZero (audio m) |} in
  audio m' = {| a_src := a_src (audio m); a_currentTime := t;
                a_duration := a_duration (audio m) |} /\
  same_core (set_audio (audio m') m) m' /\
  (exists new, log m' = new ++ log m /\
               Forall (fun o => stateOf o = None /\ isAudioRequest o = false)
                      new) /\
  ((forall cb, cb ∈ _timeUpdateListeners m ->
               Forall (keeps TimeChannel) (closures m cb)) ->
   log m' = rev ((fun cb => TimeListenerCall cb time)
                   <$> _timeUpdateListeners m)
            ++ OnTimeUpdate time :: log m).
Proof.
  cbv zeta. cbn [dispatch]. unfold _notifyTimeListeners, forEach.
  match goal with
  | |- context [forEach_from ?c ?f ?n ?k ?x] =>
      pose proof (forEach_from_core c f n k x) as Hc;
      destruct (forEach_from_log c f n k x) as (cbs & Hlog);
      pose proof (forEach_from_keeps c f (listeners c x) [] [] x) as Hk;
      set (F := forEach_from c f n k x) in *
  end.
  core_fields Hc. simpl in Haudio, Hplayers, Hactive, Hplaylist, Hindex,
    Hplaying, Hpending, Hvideo, Hclosures, Hlog.
  rewrite Haudio. split; [done|]. split; [by repeat split|].
  split.
  - eexists. split; [rewrite Hlog, cons_middle, app_assoc; reflexivity|].
    apply Forall_app. split; [|by repeat constructor].
    apply Forall_fmap, Forall_forall. by intros cb _.
  - intros Hq. destruct Hk as [Hk _]; [by rewrite app_nil_r | exact Hq |].
    exact Hk.
Qed.

(** ** The widget *)

Lemma callDisposer_idempotent d m :
  (count_occ Nat.eq_dec (listeners (d_channel d) m) (d_callback d) <= 1)%nat ->
  callDisposer d (callDisposer d m) = callDisposer d m.
Proof.
  intros H. unfold callDisposer.
  by rewrite listeners_set, set_listeners_set, dispose_idempotent.
Qed.

Lemma callDisposer_commute a b m :
  callDisposer {| d_channel := StateChannel; d_callback := a |}
    (callDisposer {| d_channel := TimeChannel; d_callback := b |} m)
  = callDisposer {| d_channel := TimeChannel; d_callback := b |}
      (callDisposer {| d_channel := StateChannel; d_callback := a |} m).
Proof. by destruct m. Qed.

(** X18.  [destroy()] of a widget touches nothing but the listener arrays.
    When each callback it holds a disposer for is registered at most once,
    none of them is registered afterwards, and a second [destroy()] changes
    nothing. *)
Theorem destroy_releases_the_widget (w : AudioPlayer) (m : AudioManager) :
  (forall ch cb, storedCallback ch w = Some cb ->
                 (count_occ Nat.eq_dec (listeners ch m) cb <= 1)%nat) ->
  (forall ch cb, storedCallback ch w = Some cb ->
                 cb ∉ listeners ch (destroy w m)) /\
  destroy w (destroy w m) = destroy w m /\
  same_core m (destroy w m) /\
  log (destroy w m) = log m.
Proof.
  intros Hc. split; [|split; [|split]].
  - intros ch cb Hcb Hin. specialize (Hc ch cb Hcb).
    rewrite destroy_listeners, Hcb in Hin.
    apply list_elem_of_In, (count_occ_In Nat.eq_dec) in Hin.
    rewrite dispose_count_self in Hin. lia.
  - pose proof (Hc StateChannel) as HS. pose proof (Hc TimeChannel) as HT.
    unfold destroy. simpl in HS, HT.
    destruct (_unsubscribeState w) as [a|], (_unsubscribeTime w) as [b|];
      try done.
    + rewrite callDisposer_commute.
      rewrite (callDisposer_idempotent
                 {| d_channel := TimeChannel; d_callback := b |})
        by (simpl; by apply HT).
      rewrite (callDisposer_idempotent
                 {| d_channel := StateChannel; d_callback := a |})
        by (simpl; by apply HS).
      done.
    + apply callDisposer_idempotent. simpl. by apply HS.
    + apply callDisposer_idempotent. simpl. by apply HT.
  - unfold destroy.
    by destruct (_unsubscribeState w), (_unsubscribeTime w).
  - unfold destroy.
    by destruct (_unsubscribeState w), (_unsubscribeTime w).
Qed.

(** X19.  What a widget shows after a state broadcast.  When the broadcast
    names another playlist than the widget's target (its master playlist, or
    its own name), the widget shows paused and keeps its index.  It shows
    playing only when the target is the playlist broadcast, the broadcast
    says playing, and the current track is among its own: the index shown is
    then the broadcast index, or for an alias its translation to a local
    index, and is never negative. *)
Theorem widget_shows_its_own_playback
        (this : AudioPlayer) (audioManager : option AudioManager)
        (view : WidgetView) (state : ManagerState) :
  (st_playlistName state <> Some (targetPlaylist this) ->
   handleManagerState this audioManager view state
   = Returns {| v_isPlaying := false;
                v_currentIndex := v_currentIndex view |}) /\
  (forall view',
      handleManagerState this audioManager view state = Returns view' ->
      st_playlistName state = Some (targetPlaylist this) ->
      0 <= v_currentIndex view' /\
      (v_isPlaying view' = true ->
       st_isPlaying state = true /\
       match masterOf this with
       | None => v_currentIndex view' = st_currentIndex state
       | Some _ =>
           findLocalIndex this audioManager (st_currentIndex state)
           = Returns (v_currentIndex view')
       end)) /\
  (forall view',
      handleManagerState this audioManager view state = Returns view' ->
      v_isPlaying view' = true ->
      st_playlistName state = Some (targetPlaylist this)).
Proof.
  unfold handleManagerState. split; [|split].
  - intros Hne. by rewrite bool_decide_eq_false_2.
  - intros view' H Hn. rewrite bool_decide_eq_true_2 in H by done.
    destruct (masterOf this).
    + destruct (findLocalIndex _ _ _) as [localIndex| |]; [|done..].
      inversion H; subst; clear H. simpl.
      destruct (localIndex >=? 0) eqn:E.
      * apply Z.geb_le in E. split; [done|].
        intros Hp. apply andb_true_iff in Hp as [Hp _]. done.
      * split; [done|]. intros Hp. apply andb_true_iff in Hp as [_ Hp]. done.
    + inversion H; subst; clear H. simpl.
      destruct (st_currentIndex state >=? 0) eqn:E.
      * apply Z.geb_le in E. split; [done|].
        intros Hp. apply andb_true_iff in Hp as [Hp _]. done.
      * split; [done|]. intros Hp. apply andb_true_iff in Hp as [_ Hp]. done.
  - intros view' H Hp. case_bool_decide as Hn; [done|].
    inversion H; subst. done.
Qed.

Lemma findDecodedIndex_from_range wanted arr : forall k r,
  findDecodedIndex_from wanted arr k = Returns r ->
  r = -1 \/
  exists pre t post,
    arr = pre ++ t :: post /\ r = k + Z.of_nat (length pre) /\
    decodesTo wanted t /\ Forall (decodesApartFrom wanted) pre.
Proof.
  induction arr as [|t arr IH]; intros k r H; cbn [findDecodedIndex_from] in H.
  - left. by inversion H.
  - destruct (URI.decodeURIComponent (src t)) as [d|] eqn:Hd; [|done].
    unfold JsString.eqb in H. case_bool_decide as Heq.
    + inversion H; subst. right. exists [], t, arr.
      repeat split; [simpl; lia | done | constructor].
    + apply IH in H as [->|(pre & t' & post & -> & -> & Ht' & Hpre)];
        [by left|].
      right. exists (t :: pre), t', post.
      repeat split; [simpl; lia | done |].
      constructor; [by exists d | done].
Qed.

(** The search through a list whose tracks decode up to a track that
    matches. *)
Lemma findDecodedIndex_from_upto wanted pre t post : forall k,
  Forall (fun t' => is_Some (URI.decodeURIComponent (src t'))) pre ->
  decodesTo wanted t ->
  exists pre' t' post',
    pre ++ t :: post = pre' ++ t' :: post' /\
    (length pre' <= length pre)%nat /\
    decodesTo wanted t' /\ Forall (decodesApartFrom wanted) pre' /\
    findDecodedIndex_from wanted (pre ++ t :: post) k
    = Returns (k + Z.of_nat (length pre')).
Proof.
  induction pre as [|x pre IH]; intros k Hpre Ht.
  - exists [], t, post. repeat split; [done.. | constructor |].
    by apply (findDecodedIndex_from_found wanted [] t post k).
  - apply Forall_cons in Hpre as [[d Hd] Hpre].
    destruct (decide (d = wanted)) as [->|Hne].
    + exists [], x, (pre ++ t :: post).
      repeat split; [simpl; lia | done | constructor |].
      by apply (findDecodedIndex_from_found wanted [] x _ k).
    + destruct (IH (k + 1) Hpre Ht)
        as (pre' & t' & post' & Heq & Hlen & Ht' & Hpre' & Hfind).
      exists (x :: pre'), t', post'. simpl.
      rewrite Heq. repeat split; [lia | done | |].
      * constructor; [by exists d | done].
      * apply (findDecodedIndex_from_found wanted (x :: pre') t' post' k);
          [|done].
        constructor; [by exists d | done].
Qed.

(** X20.  Translating a local index to the master playlist and back.  If
    [findMasterIndex(i)] returns an index [j] of the master playlist and the
    local tracks before [i] decode without error, then [findLocalIndex(j)]
    returns a local index [i'] not after [i] whose track has the same
    decoded [src] as the track at [i]; it is [i] itself when no earlier
    local track has that decoded [src]. *)
Theorem local_to_master_and_back
        (this : AudioPlayer) (mgr : AudioManager) (i j : Z) :
  findMasterIndex this (Some mgr) i = Returns j ->
  0 <= j ->
  Forall (fun t' => is_Some (URI.decodeURIComponent (src t')))
         (take (Z.to_nat i) (ap_playlist this)) ->
  exists i' t t' d,
    findLocalIndex this (Some mgr) j = Returns i' /\
    0 <= i' <= i /\
    at_index (ap_playlist this) i = Some t /\
    at_index (ap_playlist this) i' = Some t' /\
    decodesTo d t /\ decodesTo d t' /\
    (Forall (decodesApartFrom d) (take (Z.to_nat i) (ap_playlist this)) ->
     i' = i).
Proof.
  unfold findMasterIndex, findLocalIndex, lookupPlayer. intros H Hj Hdec.
  destruct (masterOf this) as [master|]; [|inversion H; lia].
  destruct (at_index (ap_playlist this) i) as [t|] eqn:Ht; [|inversion H; lia].
  destruct (players mgr !! master) as [mp|];
    [|destruct (bool_decide _);
      [by destruct (URI.decodeURIComponent _) | inversion H; lia]].
  destruct (URI.decodeURIComponent (src t)) as [d|] eqn:Hd; [|done].
  apply findDecodedIndex_from_range in H
    as [->|(pre & tm & post & Hm & -> & Htm & Hpre)]; [lia|].
  rewrite Z.add_0_l.
  assert (at_index (p_playlist mp) (Z.of_nat (length pre)) = Some tm) as ->.
  { unfold at_index. rewrite (proj2 (Z.ltb_ge _ _)) by lia.
    rewrite Nat2Z.id, Hm. by apply list_lookup_middle. }
  rewrite Htm.
  pose proof (at_index_Some _ _ _ Ht) as [[Hi0 Hi1] Hlook].
  assert (Hsplit : ap_playlist this =
                   take (Z.to_nat i) (ap_playlist this) ++
                   t :: drop (S (Z.to_nat i)) (ap_playlist this))
    by (symmetry; by apply take_drop_middle).
  assert (Hlen : Z.of_nat (length (take (Z.to_nat i) (ap_playlist this))) = i).
  { rewrite length_take. apply lookup_lt_Some in Hlook. lia. }
  destruct (findDecodedIndex_from_upto d _ t
              (drop (S (Z.to_nat i)) (ap_playlist this)) 0 Hdec Hd)
    as (pre' & t' & post' & Heq & Hle & Ht' & Hpre' & Hfind).
  rewrite <- Hsplit in Hfind, Heq. rewrite Hfind, Z.add_0_l.
  exists (Z.of_nat (length pre')), t, t', d.
  split; [done|]. split; [lia|]. split; [done|]. split; [|split; [done|split; [done|]]].
  - unfold at_index. rewrite (proj2 (Z.ltb_ge _ _)) by lia.
    rewrite Nat2Z.id, Heq. by apply list_lookup_middle.
  - intros Hapart.
    pose proof (findDecodedIndex_from_found
                  d _ t (drop (S (Z.to_nat i)) (ap_playlist this)) 0
                  Hapart Hd) as Hfind'.
    rewrite <- Hsplit in Hfind'. rewrite Hfind in Hfind'.
    inversion Hfind'. lia.
Qed.

Lemma playPlaylist_valid name player index m :
  players m !! name = Some player ->
  0 <= index < Z.of_nat (length (p_playlist player)) ->
  let m' := playPlaylist name index m in
  activePlayerName m' = Some name /\
  currentPlaylist m' = p_playlist player /\
  currentIndex m' = index /\
  isPlaying m' = isPlaying m /\
  head (log m') = Some AudioPlay.
Proof.
  intros Hp Hi. simpl. unfold playPlaylist. rewrite Hp.
  set (m0 := set_currentPlaylist (p_playlist player)
               (set_activePlayerName (Some name) m)).
  destruct (at_index_in_range (currentPlaylist m0) index Hi) as [t Ht].
  destruct (loadTrack_fields index m0 t Ht)
    as (Hidx & _ & _ & Hip & Hpl & Hact & _).
  pose proof (play_core (loadTrack index m0)) as Hc. core_fields Hc.
  assert (Ha0 : activePlayerName m0 = Some name) by reflexivity.
  assert (Hp0 : currentPlaylist m0 = p_playlist player) by reflexivity.
  assert (Hi0 : isPlaying m0 = isPlaying m) by reflexivity.
  split; [congruence|]. split; [congruence|]. split; [congruence|].
  split; [congruence|].
  rewrite play_log, Hpl, Hp0.
  rewrite bool_decide_eq_false_2
    by (destruct (p_playlist player); simpl in *; lia).
  match goal with
  | |- context [if videoManager ?x then _ else _] =>
      by destruct (videoManager x)
  end.
Qed.

(** X21.  The play button of a widget.  A widget with a playlist of its own
    toggles playback when its playlist is the active one, and otherwise
    starts its playlist at the first track.  An alias widget toggles
    playback when the master playlist is active and the current master
    track is one of its own; otherwise it starts the master playlist at the
    master index of its first track, and does nothing when that track is
    not in the master playlist. *)
Theorem play_button_of_a_widget (this : AudioPlayer) (mgr : AudioManager) :
  (masterOf this = None ->
   (activePlayerName mgr = Some (ap_name this) ->
    AudioPlayer_togglePlay this (Some mgr) = Returns (Some (togglePlay mgr))) /\
   (forall player,
       activePlayerName mgr <> Some (ap_name this) ->
       players mgr !! ap_name this = Some player ->
       p_playlist player <> [] ->
       exists m',
         AudioPlayer_togglePlay this (Some mgr) = Returns (Some m') /\
         activePlayerName m' = Some (ap_name this) /\
         currentPlaylist m' = p_playlist player /\
         currentIndex m' = 0 /\
         head (log m') = Some AudioPlay)) /\
  (forall master localIndex masterIndex,
      masterOf this = Some master ->
      findLocalIndex this (Some mgr) (currentIndex mgr) = Returns localIndex ->
      findMasterIndex this (Some mgr) 0 = Returns masterIndex ->
      (activePlayerName mgr = Some master -> 0 <= localIndex ->
       AudioPlayer_togglePlay this (Some mgr)
       = Returns (Some (togglePlay mgr))) /\
      (activePlayerName mgr <> Some master \/ localIndex < 0 ->
       (masterIndex < 0 ->
        AudioPlayer_togglePlay this (Some mgr) = Returns (Some mgr)) /\
       (0 <= masterIndex ->
        exists m',
          AudioPlayer_togglePlay this (Some mgr) = Returns (Some m') /\
          activePlayerName m' = Some master /\
          currentIndex m' = masterIndex /\
          head (log m') = Some AudioPlay))).
Proof.
  unfold AudioPlayer_togglePlay. split.
  - intros ->. split.
    + intros Ha. by rewrite bool_decide_eq_true_2.
    + intros player Ha Hp Hne. rewrite bool_decide_eq_false_2 by done.
      destruct (playPlaylist_valid (ap_name this) player 0 mgr Hp)
        as (H1 & H2 & H3 & _ & H4).
      { destruct (p_playlist player); simpl; [done | lia]. }
      by eexists.
  - intros master localIndex masterIndex Hmo Hl Hm. rewrite Hmo, Hl, Hm. split.
    + intros Ha H0. rewrite bool_decide_eq_true_2 by done.
      by rewrite (proj2 (Z.geb_le _ _) H0).
    + intros Hnot.
      assert (bool_decide (activePlayerName mgr = Some master)
              && (localIndex >=? 0) = false) as ->.
      { destruct Hnot as [Hne|Hneg].
        - by rewrite bool_decide_eq_false_2.
        - rewrite andb_false_iff. right.
          destruct (localIndex >=? 0) eqn:E; [|done].
          apply Z.geb_le in E. lia. }
      split.
      * intros Hneg. destruct (masterIndex >=? 0) eqn:E; [|done].
        apply Z.geb_le in E. lia.
      * intros H0. rewrite (proj2 (Z.geb_le _ _) H0).
        unfold findMasterIndex, lookupPlayer in Hm. rewrite Hmo in Hm.
        destruct (at_index (ap_playlist this) 0); [|inversion Hm; lia].
        destruct (players mgr !! master) as [mp|] eqn:Hp;
          [|destruct (bool_decide _);
            [by destruct (URI.decodeURIComponent _) | inversion Hm; lia]].
        destruct (URI.decodeURIComponent (src t)); [|done].
        apply findDecodedIndex_from_range in Hm
          as [->|(pre & tm & post & Hpl & -> & _)]; [lia|].
        destruct (playPlaylist_valid master mp (0 + Z.of_nat (length pre))
                                     mgr Hp)
          as (H1 & _ & H3 & _ & H4).
        { rewrite Hpl, length_app. simpl. lia. }
        by eexists.
Qed.

(** ** Paths *)

Lemma split_not_nil sep s : Path.split sep s <> [].
Proof.
  destruct s as [|c s]; simpl; [done|].
  destruct (c =? sep)%N; [done|]. by destruct (Path.split sep s).
Qed.

Lemma split_free sep s : sep ∉ s -> Path.split sep s = [s].
Proof.
  induction s as [|c s IH]; intros H; simpl; [done|].
  apply not_elem_of_cons in H as [Hne Hs].
  rewrite (proj2 (N.eqb_neq c sep)) by done. by rewrite IH.
Qed.

Lemma split_app sep p r :
  Path.split sep (p ++ sep :: r) = Path.split sep p ++ Path.split sep r.
Proof.
  induction p as [|c p IH]; simpl.
  - by rewrite N.eqb_refl.
  - destruct (c =? sep)%N; [by rewrite IH|].
    rewrite IH. pose proof (split_not_nil sep p).
    by destruct (Path.split sep p).
Qed.

Lemma join_snoc sep parts x :
  parts <> [] ->
  Path.join sep (parts ++ [x]) = Path.join sep parts ++ sep :: x.
Proof.
  induction parts as [|p parts IH]; intros H; [done|].
  destruct parts as [|q parts]; [done|].
  change (Path.join sep ((p :: q :: parts) ++ [x]))
    with (p ++ sep :: Path.join sep ((q :: parts) ++ [x])).
  rewrite IH by done.
  change (Path.join sep (p :: q :: parts))
    with (p ++ sep :: Path.join sep (q :: parts)).
  list_assoc.
Qed.

(** Splitting at a separator and joining with it gives the string back. *)
Lemma join_split sep s : Path.join sep (Path.split sep s) = s.
Proof.
  induction s as [|c s IH]; simpl; [done|].
  pose proof (split_not_nil sep s) as Hne.
  destruct (c =? sep)%N eqn:E.
  - apply N.eqb_eq in E as ->.
    destruct (Path.split sep s) as [|p ps] eqn:Es; [done|].
    change (Path.join sep ([] :: p :: ps))
      with ([] ++ sep :: Path.join sep (p :: ps)).
    by rewrite IH.
  - destruct (Path.split sep s) as [|p ps] eqn:Es; [done|].
    destruct ps as [|q ps]; simpl in *; by rewrite <- IH.
Qed.

Lemma removeExtension_strips base ext :
  ext <> [] -> Path.DOT ∉ ext ->
  Path.removeExtension (base ++ Path.DOT :: ext) = base.
Proof.
  intros Hne Hdot.
  assert (Hext : Path.isExtension (Path.DOT :: ext) = true).
  { unfold Path.isExtension. rewrite N.eqb_refl.
    rewrite bool_decide_eq_false_2 by done. simpl.
    apply forallb_forall. intros x Hx. apply negb_true_iff, N.eqb_neq.
    intros ->. by apply Hdot, list_elem_of_In. }
  induction base as [|c base IH].
  - simpl app. destruct ext; [done|].
    unfold Path.removeExtension. by rewrite Hext.
  - assert (Path.isExtension (c :: base ++ Path.DOT :: ext) = false) as Hno.
    { unfold Path.isExtension. apply andb_false_iff. right.
      apply not_true_iff_false. intros Hall.
      rewrite forallb_forall in Hall.
      specialize (Hall Path.DOT).
      rewrite N.eqb_refl in Hall. simpl in Hall.
      assert (true = false -> False) by discriminate.
      apply H. symmetry. apply Hall. apply in_or_app. right. by left. }
    change (Path.removeExtension ((c :: base) ++ Path.DOT :: ext))
      with (if Path.isExtension (c :: base ++ Path.DOT :: ext) then []
            else c :: Path.removeExtension (base ++ Path.DOT :: ext)).
    by rewrite Hno, IH.
Qed.

(** X22.  Where [loadWaveformJson] looks for the waveform of
    [parent/dir/base.ext] (no slash in [dir], [base], [ext]; [ext] not empty
    and without a dot): first [parent/dir/waveforms/base.json], then
    [parent/waveforms/base.json], and the data of the first of the two that
    can be fetched is returned.  For [dir/base.ext] with no further slash
    only [dir/waveforms/base.json] is tried. *)
Theorem waveform_json_paths
        (parent dir base ext : JsString.t)
        (fetchJson : JsString.t -> option WaveformData) :
  Path.SLASH ∉ dir -> Path.SLASH ∉ base -> Path.SLASH ∉ ext ->
  Path.DOT ∉ ext -> ext <> [] ->
  let file := base ++ Path.DOT :: ext in
  let sameDir := (parent ++ Path.SLASH :: dir)
                   ++ JsString.lit "/waveforms/" ++ base
                   ++ JsString.lit ".json" in
  let parentDir := parent ++ JsString.lit "/waveforms/" ++ base
                          ++ JsString.lit ".json" in
  pathsToTry (parent ++ Path.SLASH :: dir ++ Path.SLASH :: file)
  = [sameDir; parentDir] /\
  loadWaveformJson fetchJson (parent ++ Path.SLASH :: dir ++ Path.SLASH :: file)
  = match fetchJson sameDir with
    | Some data => Some data
    | None => fetchJson parentDir
    end /\
  pathsToTry (dir ++ Path.SLASH :: file)
  = [dir ++ JsString.lit "/waveforms/" ++ base ++ JsString.lit ".json"].
Proof.
  intros Hd Hb He Hdot Hne. cbv zeta.
  assert (Hfile : Path.SLASH ∉ base ++ Path.DOT :: ext).
  { apply not_elem_of_app. split; [done|].
    apply not_elem_of_cons. split; [done|done]. }
  assert (Hpaths :
            pathsToTry (parent ++ Path.SLASH :: dir ++ Path.SLASH
                               :: base ++ Path.DOT :: ext)
            = [(parent ++ Path.SLASH :: dir)
                 ++ JsString.lit "/waveforms/" ++ base ++ JsString.lit ".json";
               parent ++ JsString.lit "/waveforms/" ++ base
                      ++ JsString.lit ".json"]).
  { unfold pathsToTry.
    rewrite !split_app, (split_free _ dir), (split_free _ (base ++ _)) by done.
    rewrite (app_assoc (Path.split Path.SLASH parent) [dir]).
    rewrite last_last, removelast_last.
    rewrite removeExtension_strips by done.
    rewrite join_snoc by apply split_not_nil.
    rewrite removelast_last, join_split, length_app. simpl length.
    pose proof (split_not_nil Path.SLASH parent) as Hp.
    assert ((1 <? length (Path.split Path.SLASH parent) + 1)%nat = true) as ->;
      [|done].
    apply Nat.ltb_lt. destruct (Path.split Path.SLASH parent); simpl; [done|lia]. }
  split; [done|]. split.
  - unfold loadWaveformJson. rewrite Hpaths.
    destruct (fetchJson _); [done|]. by destruct (fetchJson _).
  - unfold pathsToTry.
    rewrite split_app, (split_free _ dir), (split_free _ (base ++ _)) by done.
    change ([dir] ++ [base ++ Path.DOT :: ext])
      with ([dir] ++ [base ++ Path.DOT :: ext]).
    rewrite last_last, removelast_last.
    by rewrite removeExtension_strips.
Qed.

(** ** Router *)

Lemma removeHtmlSuffix_strips s :
  Path.removeHtmlSuffix (s ++ JsString.lit ".html") = s.
Proof.
  induction s as [|c s IH]; [done|].
  assert (JsString.eqb ((c :: s) ++ JsString.lit ".html")
                       (JsString.lit ".html") = false) as Hno.
  { unfold JsString.eqb. apply bool_decide_eq_false_2. intros E.
    apply (f_equal length) in E. rewrite length_app in E. simpl in E. lia. }
  change (Path.removeHtmlSuffix ((c :: s) ++ JsString.lit ".html"))
    with (if JsString.eqb ((c :: s) ++ JsString.lit ".html")
                          (JsString.lit ".html")
          then [] else c :: Path.removeHtmlSuffix (s ++ JsString.lit ".html")).
  by rewrite Hno, IH.
Qed.

(** The two outcomes of [pathToPage]. *)
Lemma pathToPage_cases this path :
  pathToPage this path = defaultPage this \/
  (pathToPage this path <> [] /\
   pathToPage this path <> JsString.lit "index").
Proof.
  unfold pathToPage. destruct (_ || _); [by left|].
  destruct (JsString.eqb _ (JsString.lit "index") || JsString.eqb _ [])
    eqn:E; [by left|].
  right. apply orb_false_iff in E as [E1 E2].
  unfold JsString.eqb in E1, E2.
  apply bool_decide_eq_false in E1, E2. done.
Qed.

(** X23.  The address shown for a page leads back to it:
    [pathToPage] of the path that [loadPage] pushes to the history for the
    page name [pathToPage(path)] is that page name again, whatever [path]
    and the router's default page are. *)
Theorem displayed_path_leads_back (this : Router) (path : JsString.t) :
  pathToPage this (displayPath this (pathToPage this path))
  = pathToPage this path.
Proof.
  set (page := pathToPage this path).
  unfold displayPath. unfold JsString.eqb at 1. case_bool_decide as Hd.
  - by rewrite Hd.
  - destruct (pathToPage_cases this path) as [E|[Hne Hni]]; [done|].
    fold page in Hne, Hni.
    unfold pathToPage.
    change (JsString.lit "/" ++ page ++ JsString.lit ".html")
      with (Path.SLASH :: (page ++ JsString.lit ".html")).
    assert (JsString.eqb (Path.SLASH :: page ++ JsString.lit ".html")
                         (JsString.lit "/") = false) as ->.
    { unfold JsString.eqb. apply bool_decide_eq_false_2. intros E.
      apply (f_equal length) in E. simpl in E. rewrite length_app in E.
      simpl in E. lia. }
    assert (JsString.eqb (Path.SLASH :: page ++ JsString.lit ".html") []
            = false) as -> by done.
    cbn [orb Path.removeLeadingSlash].
    rewrite N.eqb_refl, removeHtmlSuffix_strips.
    unfold JsString.eqb. by rewrite !bool_decide_eq_false_2.
Qed.

(** X24.  A router built by the constructor never maps a path to the empty
    page name, and maps a path to [index] only if that is its default page;
    the file fetched for a path is therefore never [basePath/.html]. *)
Theorem pathToPage_is_a_page_name
        (optBasePath optDefaultPage : option JsString.t) (path : JsString.t) :
  let this := new_Router optBasePath optDefaultPage in
  pathToPage this path <> [] /\
  (pathToPage this path = JsString.lit "index" ->
   defaultPage this = JsString.lit "index") /\
  pagePath this (pathToPage this path)
  <> basePath this ++ JsString.lit "/.html".
Proof.
  cbv zeta.
  set (this := new_Router optBasePath optDefaultPage).
  assert (Hdef : defaultPage this <> []).
  { unfold this, new_Router, orDefault. simpl.
    by destruct optDefaultPage as [[|c s]|]. }
  assert (Hne : pathToPage this path <> []).
  { destruct (pathToPage_cases this path) as [Heq|[H _]]; [congruence|done]. }
  split; [done|]. split.
  - intros E. destruct (pathToPage_cases this path) as [Heq|[_ H]];
      [congruence | done].
  - unfold pagePath. intros E. apply app_inv_head in E.
    destruct (pathToPage this path) as [|c s]; [done|].
    apply (f_equal length) in E. simpl in E. rewrite length_app in E.
    simpl in E. lia.
Qed.

Lemma startsWith_prefix sub : forall s,
  JsString.startsWith s sub = true <-> exists rest, s = sub ++ rest.
Proof.
  induction sub as [|c sub IH]; intros s.
  - split; [by exists s | by destruct s].
  - destruct s as [|d s]; simpl.
    + split; [done | by intros [rest H]].
    + rewrite andb_true_iff, N.eqb_eq, IH. split.
      * intros [-> [rest ->]]. by exists rest.
      * intros [rest H]. inversion H; subst. split; [done | by exists rest].
Qed.

(** X25.  A navigation link is marked active exactly when the page shown is
    the link's page or lies under it, that is, is the link's page followed
    by a slash and anything; a page that merely begins with the same
    characters does not mark it. *)
Theorem active_link_is_page_or_section (pageName linkPage : JsString.t) :
  isActiveNav pageName linkPage = true <->
  pageName = linkPage \/
  exists rest, pageName = linkPage ++ Path.SLASH :: rest.
Proof.
  unfold isActiveNav. rewrite orb_true_iff, startsWith_prefix.
  unfold JsString.eqb. rewrite bool_decide_eq_true.
  split; intros [H|[rest H]]; [by left | right | by left | right];
    exists rest; rewrite H; list_assoc.
Qed.

(** * The further properties at sample states *)

Import Fixture.



Lemma playPlaylist_out_of_range_witness :
  activePlayerName (playPlaylist "B" 7 playingA) = Some "B"%string /\
  currentIndex (playPlaylist "B" 7 playingA) = 0 /\
  a_src (audio (playPlaylist "B" 7 playingA)) = JsString.lit "/a/1.mp3".
Proof.
  destruct (playPlaylist_out_of_range "B" (playerOf "B" [t3; t4]) 7 playingA)
    as (Ha & _ & Hi & Hau & _).
  - reflexivity.
  - simpl. lia.
  - split; [exact Ha|]. split; [exact Hi|]. rewrite Hau. reflexivity.
Defined.

Lemma setActivePlaylist_selects_without_playing_witness :
  activePlayerName (setActivePlaylist "B" playingA) = Some "B"%string /\
  isPlaying (setActivePlaylist "B" playingA) = true.
Proof.
  destruct (setActivePlaylist_selects_without_playing
              "B" (playerOf "B" [t3; t4]) playingA) as (Ha & _ & Hp & _).
  - reflexivity.
  - split; [exact Ha | exact Hp].
Defined.

Lemma togglePlay_requests_witness :
  togglePlay registered = registered /\
  log (togglePlay playingA) = AudioPause :: log playingA /\
  head (log (togglePlay (dispatch playingA Pause))) = Some AudioPlay.
Proof.
  destruct (togglePlay_requests registered) as (H1 & _).
  destruct (togglePlay_requests playingA) as (_ & H2 & _).
  destruct (togglePlay_requests (dispatch playingA Pause)) as (_ & _ & H3 & _).
  split; [apply H1; reflexivity|]. split; [apply H2; reflexivity|].
  destruct H3 as (new & -> & _); [reflexivity | discriminate | reflexivity].
Defined.

Lemma reachable_states_are_well_formed_witness :
  let m := fold_left exec [DoRegister "A" [t1; t2] noOptions;
                           DoPlayPlaylist "A" 1; Fire Play;
                           DoUnregister "A"]
                     (new_AudioManager false quiet) in
  0 <= currentIndex m /\ getCurrentTrack m = TrackNull.
Proof.
  destruct (reachable_states_are_well_formed
              false quiet [DoRegister "A" [t1; t2] noOptions;
                           DoPlayPlaylist "A" 1; Fire Play;
                           DoUnregister "A"]) as (H0 & H1).
  split; [exact H0|]. destruct H1 as (_ & H & _); [reflexivity | exact H].
Defined.

Lemma loaded_source_is_current_track_witness :
  let m := fold_left exec [Fire Play; Fire Ended; DoClearPlayers; DoPrevious]
                     (playPlaylist "A" 0 registered) in
  exists t, getCurrentTrack m = TrackObject t /\ a_src (audio m) = src t.
Proof.
  destruct (loaded_source_is_current_track
              "A" (playerOf "A" [t1; t2]) 0
              [Fire Play; Fire Ended; DoClearPlayers; DoPrevious] registered)
    as (t & Ht & Hs & _).
  - reflexivity.
  - simpl. lia.
  - repeat constructor.
  - exists t. split; [exact Ht | exact Hs].
Defined.

Lemma ended_events_walk_the_playlist_witness :
  currentIndex (fold_left dispatch [Ended] playingA) = 1 /\
  currentIndex (fold_left dispatch [Ended; Ended] playingA) = 0.
Proof.
  destruct (ended_events_walk_the_playlist 1 playingA)
    as (H1 & _ & H2 & _).
  - by vm_compute.
  - reflexivity.
  - split; [exact H1 | exact H2].
Defined.

Lemma setWaveform_then_getWaveform_witness :
  getWaveform "A" 0 (setWaveform "A" 0 [1 # 2]%Q playingA) = Some [1 # 2]%Q /\
  getCurrentWaveform (setWaveform "A" 0 [1 # 2]%Q playingA) = Some [1 # 2]%Q /\
  getWaveform "B" 0 (setWaveform "A" 0 [1 # 2]%Q playingA) = None.
Proof.
  destruct (setWaveform_then_getWaveform
              "A" (playerOf "A" [t1; t2]) 0 [1 # 2]%Q playingA)
    as (H1 & H2 & _ & _ & _ & H3).
  - reflexivity.
  - split; [exact H1|]. split.
    + apply H3; [reflexivity | discriminate | reflexivity].
    + rewrite H2; [reflexivity | discriminate].
Defined.

Lemma waveforms_lost_with_registration_witness :
  getWaveform "A" 0 (setWaveform "A" 0 [1 # 2]%Q registered)
  = Some [1 # 2]%Q /\
  getWaveform "A" 0
    (register "A" [t1; t2] noOptions
       (unregister "A" (setWaveform "A" 0 [1 # 2]%Q registered))) = None /\
  getWaveform "A" 0
    (register "A" [t1; t2] noOptions
       (clearPlayers (setWaveform "A" 0 [1 # 2]%Q registered))) = None.
Proof.
  destruct (waveforms_lost_with_registration
              "A" (playerOf "A" [t1; t2]) [t1; t2] noOptions 0 [1 # 2]%Q
              registered)
    as (H0 & _ & _ & H1 & H2).
  - discriminate.
  - reflexivity.
  - split; [exact H0|]. split; [apply H1 | apply H2].
Defined.


Lemma playlist_data_survives_clear_witness :
  let read := getActivePlaylistData uncached in
  (getActivePlaylistData
     (onManager (fun m => fold_left dispatch [Ended] (clearPlayers m)) read.2)).1
  = Some {| pd_name := "A"; pd_artist := None; pd_year := None;
            pd_tracks := [t1; t2]; pd_currentIndex := 1 |} /\
  (getActivePlaylistData
     (onManager (fun m => fold_left dispatch [Ended] (clearPlayers m))
                uncached)).1 = None.
Proof.
  destruct (playlist_data_survives_clear
              "A" (playerOf "A" [t1; t2]) [Ended] uncached)
    as (_ & H1 & H2 & _).
  - reflexivity.
  - discriminate.
  - apply (bool_decide_eq_false_1 ("A"%string ∈ objectPrototypeKeys)).
    reflexivity.
  - reflexivity.
  - split; [rewrite H1; reflexivity | apply H2; reflexivity].
Defined.

Lemma clearPlayers_releases_listeners_witness :
  (5%nat ∉ _stateChangeListeners (clearPlayers withWidget)) /\
  (6%nat ∉ _timeUpdateListeners (clearPlayers withWidget)).
Proof.
  split.
  - refine (proj1 (clearPlayers_releases_listeners
                     "W" {| p_name := "W"; p_playlist := [t1; t2];
                            p_options := widgetOptions;
                            p_artist := Some "Artist"%string;
                            p_year := None; p_waveforms := ∅ |}
                     widget StateChannel 5 withWidget _ _ _ _ _));
      [discriminate | reflexivity | reflexivity | reflexivity | simpl; lia].
  - refine (proj1 (clearPlayers_releases_listeners
                     "W" {| p_name := "W"; p_playlist := [t1; t2];
                            p_options := widgetOptions;
                            p_artist := Some "Artist"%string;
                            p_year := None; p_waveforms := ∅ |}
                     widget TimeChannel 6 withWidget _ _ _ _ _));
      [discriminate | reflexivity | reflexivity | reflexivity | simpl; lia].
Defined.

Lemma navigation_round_trip_witness :
  let m2 := register "A" [t1; t2] noOptions (clearPlayers holdingAbsolute) in
  exists m', tryReconnect_call "A" m2 = Returns (true, m') /\
             currentIndex m' = 1 /\
             a_src (audio m') = JsString.lit "https://example.org/a/2.mp3".
Proof.
  destruct (navigation_round_trip
              "A" [t1] t2 [] noOptions holdingAbsolute)
    as (m' & H1 & _ & _ & H2 & H3 & _).
  - reflexivity.
  - discriminate.
  - repeat constructor.
  - reflexivity.
  - exists m'. split; [exact H1|]. split; [exact H2|]. by rewrite H3.
Defined.

Lemma subscribe_then_dispose_witness :
  (let added := addStateListener 9 withWidget in
   callDisposer added.2 added.1 = withWidget) /\
  (let added := addStateListener 4 withWidget in
   _stateChangeListeners (callDisposer added.2 added.1) = [5; 4]%nat).
Proof.
  split.
  - destruct (subscribe_then_dispose StateChannel 9 withWidget) as (H & _).
    apply H. intros Hin. apply list_elem_of_In in Hin. simpl in Hin.
    destruct Hin as [Hin|[Hin|[]]]; discriminate Hin.
  - destruct (subscribe_then_dispose StateChannel 4 withWidget) as (_ & H).
    apply (H [] [5%nat]); [reflexivity | apply not_elem_of_nil].
Defined.

Lemma timeupdate_reaches_time_listeners_witness :
  head (log (dispatch withWidget (Timeupdate 2%Q)))
  = Some (TimeListenerCall 6 {| ti_currentTime := 2%Q; ti_duration := 0%Q |}).
Proof.
  destruct (timeupdate_reaches_time_listeners 2%Q withWidget)
    as (_ & _ & _ & H).
  rewrite H; [reflexivity|].
  intros cb _. constructor.
Defined.

Lemma destroy_releases_the_widget_witness :
  _stateChangeListeners (destroy widget withWidget) = [4%nat] /\
  destroy widget (destroy widget withWidget) = destroy widget withWidget.
Proof.
  destruct (destroy_releases_the_widget widget withWidget) as (_ & H & _).
  - intros [] cb Hcb; inversion Hcb; subst; simpl; lia.
  - split; [reflexivity | exact H].
Defined.

Lemma widget_shows_its_own_playback_witness :
  handleManagerState album (Some master)
                     {| v_isPlaying := true; v_currentIndex := 0 |}
                     (getState playingA)
  = Returns {| v_isPlaying := false; v_currentIndex := 0 |} /\
  findLocalIndex album (Some master) 1 = Returns 0.
Proof.
  destruct (widget_shows_its_own_playback
              album (Some master)
              {| v_isPlaying := true; v_currentIndex := 0 |}
              (getState playingA)) as (H1 & _).
  destruct (widget_shows_its_own_playback
              album (Some master)
              {| v_isPlaying := true; v_currentIndex := 0 |}
              masterPlaysSecond) as (_ & H2 & H3).
  split; [apply H1; discriminate|].
  destruct (H2 {| v_isPlaying := true; v_currentIndex := 0 |})
    as (_ & H); [reflexivity | reflexivity |].
  destruct H as (_ & H); [reflexivity | exact H].
Defined.

Lemma local_to_master_and_back_witness :
  findLocalIndex album (Some master) 1 = Returns 0.
Proof.
  destruct (local_to_master_and_back album master 0 1)
    as (i' & t & t' & d & Hback & _ & _ & _ & _ & _ & Hsame).
  - reflexivity.
  - lia.
  - constructor.
  - rewrite Hback. f_equal. apply Hsame. constructor.
Defined.

Lemma play_button_of_a_widget_witness :
  AudioPlayer_togglePlay (widgetOf "A" [t1; t2]) (Some playingA)
  = Returns (Some (togglePlay playingA)) /\
  (exists m', AudioPlayer_togglePlay (widgetOf "B" [t3; t4]) (Some playingA)
              = Returns (Some m') /\
              activePlayerName m' = Some "B"%string) /\
  (exists m', AudioPlayer_togglePlay album (Some master) = Returns (Some m') /\
              activePlayerName m' = Some "M"%string /\ currentIndex m' = 1).
Proof.
  split; [|split].
  - destruct (play_button_of_a_widget (widgetOf "A" [t1; t2]) playingA)
      as ((H & _) & _); [reflexivity|].
    apply H. reflexivity.
  - destruct (play_button_of_a_widget (widgetOf "B" [t3; t4]) playingA)
      as ((_ & H) & _); [reflexivity|].
    destruct (H (playerOf "B" [t3; t4])) as (m' & Hm & Ha & _);
      [discriminate | reflexivity | discriminate |].
    exists m'. split; [exact Hm | exact Ha].
  - destruct (play_button_of_a_widget album master) as (_ & H).
    destruct (H "M"%string (-1) 1) as (_ & H');
      [reflexivity | reflexivity | reflexivity |].
    destruct H' as (_ & H''); [left; discriminate|].
    destruct H'' as (m' & Hm & Ha & Hi & _); [lia|].
    exists m'. split; [exact Hm|]. split; [exact Ha | exact Hi].
Defined.

Lemma waveform_json_paths_witness :
  pathsToTry (JsString.lit "/norelcomori/episodes/foo.mp3")
  = [JsString.lit "/norelcomori/episodes/waveforms/foo.json";
     JsString.lit "/norelcomori/waveforms/foo.json"].
Proof.
  refine (proj1 (waveform_json_paths
                   (JsString.lit "/norelcomori") (JsString.lit "episodes")
                   (JsString.lit "foo") (JsString.lit "mp3")
                   (fun _ => None) _ _ _ _ _));
    try (intros Hin; apply list_elem_of_In in Hin; vm_compute in Hin;
         repeat (destruct Hin as [Hin|Hin]; [discriminate Hin|]); exact Hin).
  discriminate.
Defined.

Lemma pathToPage_is_a_page_name_witness :
  pathToPage home (JsString.lit "/index.html") = JsString.lit "home" /\
  pathToPage home (JsString.lit "/about.html") <> [].
Proof.
  destruct (pathToPage_is_a_page_name None None (JsString.lit "/about.html"))
    as (H & _).
  split; [reflexivity | exact H].
Defined.

Lemma active_link_is_page_or_section_witness :
  isActiveNav (JsString.lit "music/album") (JsString.lit "music") = true /\
  isActiveNav (JsString.lit "musical") (JsString.lit "music") = false.
Proof.
  split.
  - apply active_link_is_page_or_section. right.
    exists (JsString.lit "album"). reflexivity.
  - apply not_true_iff_false. intros H.
    apply active_link_is_page_or_section in H as [H|[rest H]];
      discriminate H.
Defined.
